(** * django-translations: [translations/utils.py] and [translations/models.py]

    A shallow embedding of the translation utilities: language validation,
    reverse relation names, the translation query, the relation hierarchy,
    the overlay ([translate]) and the transactional renewal
    ([update_translations]).  Python values are modelled by the inductive
    types below, exceptions by the [result] type, in-place mutation and the
    side table by explicit state passing. *)

From Stdlib Require Import ZArith Strings.Ascii Strings.String Numbers.DecimalString.
From stdpp Require Import base option list strings gmap.

(** ** Python strings *)

(** [django.db.models.constants.LOOKUP_SEP] *)
Definition LOOKUP_SEP : string := "__".

(** [s.split(LOOKUP_SEP)]: cut at every occurrence of the two-character
    separator, scanning from the left. *)
Definition extend (c : ascii) (parts : list string) : list string :=
  match parts with
  | part :: parts => String c part :: parts
  | [] => [String c EmptyString]
  end.

Fixpoint split (s : string) : list string :=
  match s with
  | EmptyString => [EmptyString]
  | String c rest =>
      match rest with
      | String c' rest' =>
          if Ascii.eqb c "_" && Ascii.eqb c' "_"
          then EmptyString :: split rest'
          else extend c (split rest)
      | EmptyString => extend c (split rest)
      end
  end.

(** [LOOKUP_SEP.join(parts)] *)
Fixpoint join (parts : list string) : string :=
  match parts with
  | [] => ""
  | [part] => part
  | part :: rest => part +:+ LOOKUP_SEP +:+ join rest
  end.

(** [str(id)] for an integer primary key *)
Definition str (id : Z) : string := NilZero.string_of_int (Z.to_int id).

(** [s.lower()], on the ASCII letters that labels and class names are
    written with. *)
Definition lower_char (c : ascii) : ascii :=
  let n := nat_of_ascii c in
  if (65 <=? n)%nat && (n <=? 90)%nat then ascii_of_nat (n + 32) else c.
Fixpoint lower (s : string) : string :=
  match s with
  | EmptyString => EmptyString
  | String c rest => String (lower_char c) (lower rest)
  end.

(** ** Exceptions *)

Inductive exn :=
| ValidationError
| FieldDoesNotExist
| AttributeError
| IndexError
| ValueError
| IntegrityError
| RecursionError
| Exception (message : string).

Inductive result (A : Type) :=
| Ok (value : A)
| Err (e : exn).
Arguments Ok {A} value.
Arguments Err {A} e.

#[global] Instance result_ret : MRet result := fun A x => Ok x.
#[global] Instance result_bind : MBind result := fun A B f m =>
  match m with
  | Ok x => f x
  | Err e => Err e
  end.

(** The exception both [get_translations] and [translate] raise for a context
    of the wrong shape. *)
Definition invalid_context : exn :=
  Exception "`context` is neither a model instance or a queryset or a list".

(** Code that mutates a state of type [S] in place and may raise: the state
    reached when the exception is raised is kept. *)
Definition Mut (S A : Type) : Type := S -> S * result A.

Definition mut_ret {S A} (x : A) : Mut S A := fun s => (s, Ok x).
Definition mut_bind {S A B} (m : Mut S A) (f : A -> Mut S B) : Mut S B :=
  fun s =>
    match m s with
    | (s', Ok x) => f x s'
    | (s', Err e) => (s', Err e)
    end.
Definition lift {S A} (r : result A) : Mut S A := fun s => (s, r).

(** [for x in xs: body(x)] where [body] mutates [x] in place. *)
Fixpoint for_each {A} (body : Mut A unit) (xs : list A) : list A * result unit :=
  match xs with
  | [] => ([], Ok tt)
  | x :: rest =>
      match body x with
      | (x', Ok _) =>
          let '(rest', r) := for_each body rest in (x' :: rest', r)
      | (x', Err e) => (x' :: rest, Err e)
      end
  end.

(** [with transaction.atomic(): body]: an exception leaving the block rolls
    the store back to the state it had on entry, and propagates. *)
Definition atomic {S A} (body : Mut S A) : Mut S A :=
  fun s =>
    match body s with
    | (s', Ok x) => (s', Ok x)
    | (_, Err e) => (s, Err e)
    end.

(** [try: body except Exception: raise] *)
Definition try_reraise {S A} (body : Mut S A) : Mut S A :=
  fun s =>
    match body s with
    | (s', Ok x) => (s', Ok x)
    | (s', Err e) => (s', Err e)
    end.

(** ** Data model *)

(** A model class: [_meta.app_label], [__module__] and [__name__]. *)
Record Model := { app_label : string; class_module : string; class_name : string }.

(** [_meta.model_name]: the name of the class in lower case. *)
Definition model_name (cls : Model) : string := lower (class_name cls).

(** [str(cls)] *)
Definition str_class (cls : Model) : string :=
  "<class '" +:+ class_module cls +:+ "." +:+ class_name cls +:+ "'>".

#[global] Instance Model_eq_dec : EqDecision Model.
Proof. solve_decision. Defined.

(** The field classes [get_translatable_fields] tells apart;
    [EmailField] is a subclass of [CharField]. *)
Inductive FieldKind := CharField | TextField | EmailField | OtherField.

#[global] Instance FieldKind_eq_dec : EqDecision FieldKind.
Proof. solve_decision. Defined.

(** What [_meta.get_field] returns: [f_remote] is [None] when
    [field.remote_field] is [None], and otherwise holds
    [field.remote_field.name] and [field.related_model]. *)
Record Field := {
  f_name : string;
  f_kind : FieldKind;
  f_choices : bool;
  f_remote : option (string * Model);
}.

#[global] Instance Field_eq_dec : EqDecision Field.
Proof. solve_decision. Defined.

(** Attribute values of a model instance: [None], text, a related instance,
    or a related manager with the rows its [all()] yields ([prefetched] tells
    whether these are the instances cached on the parent). *)
Inductive Value :=
| VNone
| VStr (s : string)
| VObj (obj : Instance)
| VManager (model : Model) (prefetched : bool) (rows : list Instance)
with Instance :=
| mkInstance (inst_model : Model) (inst_id : Z) (inst_attrs : gmap string Value).

Definition inst_model (obj : Instance) : Model :=
  let '(mkInstance m _ _) := obj in m.
Definition inst_id (obj : Instance) : Z :=
  let '(mkInstance _ i _) := obj in i.
Definition inst_attrs (obj : Instance) : gmap string Value :=
  let '(mkInstance _ _ a) := obj in a.

Definition getattr (obj : Instance) (name : string) : Value :=
  default VNone (inst_attrs obj !! name).
Definition hasattr (obj : Instance) (name : string) : bool :=
  bool_decide (is_Some (inst_attrs obj !! name)).
Definition setattr (obj : Instance) (name : string) (v : Value) : Instance :=
  mkInstance (inst_model obj) (inst_id obj) (<[name := v]> (inst_attrs obj)).

(** Python truthiness of an attribute value and of a text. *)
Definition truthy (v : Value) : bool :=
  match v with
  | VNone => false
  | VStr s => negb (String.eqb s "")
  | VObj _ | VManager _ _ _ => true
  end.
Definition nonempty (s : string) : bool := negb (String.eqb s "").

(** A row of the [Translation] table ([models.py], class [Translation]). *)
Record Translation := {
  content_type : Z;
  object_id : string;
  field : string;
  language : string;
  text : string;
}.

#[global] Instance Translation_eq_dec : EqDecision Translation.
Proof. solve_decision. Defined.

(** [Translation.Meta.unique_together] *)
Definition unique_key (row : Translation) : Z * string * string * string :=
  (content_type row, object_id row, field row, language row).
Definition unique_together (table : list Translation) : Prop :=
  NoDup (unique_key <$> table).

(** The context of an operation. *)
Inductive Context :=
| QuerySet (model : Model) (rows : list Instance)
| PyList (items : list Instance)
| ModelInstance (obj : Instance)
| Other.

(** The project the library runs in: settings, the active language, the
    model registry, and the relational store's joins. *)
Record App := {
  LANGUAGES : list string;
  get_language : option string;
  is_Translatable : Model -> bool;
  local_fields : Model -> list Field;
  has_TranslatableMeta : Model -> bool;
  TranslatableMeta_fields : Model -> option (list string);
  content_type_id : Model -> Z;
  py_str : Value -> string;
  joins : string -> Translation -> Z -> bool;
}.

(** ** [translations/models.py] *)

Section models.
Context (app : App).

(** [Translation], the model of the side table. *)
Definition Translation_model : Model :=
  {| app_label := "translations"; class_module := "translations.models";
     class_name := "Translation" |}.

(** [Translatable.translations]: the generic relation every translatable
    model inherits, with
    [related_query_name="%(app_label)s_%(class)s"], which Django fills in
    with the application label and the class name, both in lower case. *)
Definition translations_relation (cls : Model) : Field :=
  {| f_name := "translations";
     f_kind := OtherField;
     f_choices := false;
     f_remote := Some (lower (app_label cls) +:+ "_" +:+ lower (class_name cls),
                       Translation_model) |}.

(** [cls._meta.get_fields()] *)
Definition get_fields (cls : Model) : list Field :=
  local_fields app cls ++
  (if is_Translatable app cls then [translations_relation cls] else []).

(** [cls._meta.get_field(name)] *)
Definition get_field (cls : Model) (name : string) : result Field :=
  match List.find (fun f => bool_decide (f_name f = name)) (get_fields cls) with
  | Some f => Ok f
  | None => Err FieldDoesNotExist
  end.

(** [isinstance(field, (CharField, TextField))] *)
Definition is_char_or_text (f : Field) : bool :=
  match f_kind f with
  | CharField | TextField | EmailField => true
  | OtherField => false
  end.
(** [isinstance(field, EmailField)] *)
Definition is_email (f : Field) : bool :=
  match f_kind f with
  | EmailField => true
  | _ => false
  end.

(** [[cls._meta.get_field(field_name) for field_name in names]] *)
Fixpoint get_named_fields (cls : Model) (names : list string)
  : result (list Field) :=
  match names with
  | [] => Ok []
  | field_name :: rest =>
      f ← get_field cls field_name;
      fs ← get_named_fields cls rest;
      Ok (f :: fs)
  end.

(** [Translatable.get_translatable_fields] *)
Definition get_translatable_fields (cls : Model) : result (list Field) :=
  if has_TranslatableMeta app cls then
    match TranslatableMeta_fields app cls with
    | None =>
        Ok (List.filter
              (fun f => is_char_or_text f && negb (is_email f)
                        && negb (f_choices f))
              (get_fields cls))
    | Some names => get_named_fields cls names
    end
  else
    Err (Exception (str_class cls +:+ " class is not a translatable model.")).

(** [Translatable.Meta.abstract = True] *)
Definition Translatable_abstract : bool := true.

(** [cls.objects] on a model class: Django's manager descriptor refuses an
    abstract class ("Manager isn't available; ... is abstract"). *)
Definition objects (abstract : bool) : result unit :=
  if abstract then Err AttributeError else Ok tt.
End models.

(** ** [translations/utils.py] *)

(** The value a clause compares ids with: [id__in=[...]] or [id=...]. *)
Inductive ContextValue :=
| IdIn (ids : list Z)
| IdExact (id : Z).

(** A [models.Q] object with the single keyword
    ['{}__{}'.format(related_query_name, filter_string)] and its value. *)
Record Q := {
  q_related_query_name : string;
  q_filter_string : string;
  q_value : ContextValue;
}.

(** A queryset of translations, as the query it will run:
    [Translation.objects.filter(language=lang).filter(q1 | q2 | ...).distinct()],
    or the empty queryset [none()]. *)
Inductive TranslationQuerySet :=
| Filtered (lang : string) (filter_query : list Q)
| NoneQuerySet.

(** The [translations_queryset] argument of [translate]. *)
Inductive TranslationsArg :=
| ArgNone
| ArgQuerySet (queryset : TranslationQuerySet)
| ArgDict (d : gmap Z (gmap string (list Translation))).

Section utils.
Context (app : App).

(** Modelled from the spec: [validate_language] lives in
    [translations/validators.py], which is not among the sources.  Spec 4.1:
    "Fails with InvalidLanguage if the resolved tag is not a member of
    supportedTags"; the failure is Django's [ValidationError], as the
    docstring of [get_validated_language] shows. *)
Definition validate_language (value : option string) : result string :=
  match value with
  | Some tag =>
      if bool_decide (tag ∈ LANGUAGES app) then Ok tag else Err ValidationError
  | None => Err ValidationError
  end.

(** Truthiness of [lang] (a [str] or [None]). *)
Definition lang_given (lang : option string) : bool :=
  match lang with
  | Some tag => nonempty tag
  | None => false
  end.

Definition get_validated_language (lang : option string) : result string :=
  let lang := if lang_given lang then lang else get_language app in
  validate_language lang.

(** The body of [get_related_query_name] on [parts = relation.split(LOOKUP_SEP)],
    with [root = parts[0]] and [branch = parts[1:]].  The source recurses on
    [LOOKUP_SEP.join(branch)], which splits back into [branch]
    (lemma [split_join_branch]). *)
Fixpoint related_query_name_of (model : Model) (root : string)
    (branch : list string) : result string :=
  f ← get_field app model root;
  match f_remote f with
  | None => Err AttributeError
  | Some (related_query_name, branch_model) =>
      match branch with
      | [] => Ok related_query_name
      | branch_root :: branch_rest =>
          branch_related_query_name ←
            related_query_name_of branch_model branch_root branch_rest;
          Ok (branch_related_query_name +:+ "__" +:+ related_query_name)
      end
  end.

Definition get_related_query_name (model : Model) (relation : string)
  : result string :=
  let parts := split relation in
  related_query_name_of model (hd "" parts) (tl parts).

(** The normalised context of [get_translations]. *)
Definition fetch_context (context : Context)
  : result (Model * string * ContextValue) :=
  match context with
  | QuerySet model rows => Ok (model, "id__in", IdIn (inst_id <$> rows))
  | PyList items =>
      match items with
      | [] => Err IndexError
      | first :: _ =>
          Ok (inst_model first, "id__in", IdIn (inst_id <$> items))
      end
  | ModelInstance obj => Ok (inst_model obj, "id", IdExact (inst_id obj))
  | Other => Err invalid_context
  end.

(** The loop [for relation in relations] of [get_translations]. *)
Fixpoint relation_queries (model : Model) (filter_string : string)
    (context_value : ContextValue) (relations : list string)
  : result (list Q) :=
  match relations with
  | [] => Ok []
  | relation :: rest =>
      related_query_name ←
        get_related_query_name model (relation +:+ "__" +:+ "translations");
      queries ← relation_queries model filter_string context_value rest;
      Ok ({| q_related_query_name := related_query_name;
             q_filter_string := filter_string;
             q_value := context_value |} :: queries)
  end.

Definition get_translations (context : Context) (relations : list string)
    (lang : option string) : result TranslationQuerySet :=
  lang ← get_validated_language lang;
  '(model, filter_string, context_value) ← fetch_context context;
  own ← (if is_Translatable app model then
           related_query_name ← get_related_query_name model "translations";
           Ok [{| q_related_query_name := related_query_name;
                  q_filter_string := filter_string;
                  q_value := context_value |}]
         else Ok []);
  rel ← relation_queries model filter_string context_value relations;
  let queries := own ++ rel in
  if (0 <? length queries)%nat then Ok (Filtered lang queries)
  else
    _ ← objects Translatable_abstract;
    Ok NoneQuerySet.

(** The store's evaluation of a clause on a row: the row is joined, along
    the reverse name, to an entity whose id the clause accepts. *)
Definition q_holds (q : Q) (row : Translation) : bool :=
  match q_value q with
  | IdIn ids => existsb (joins app (q_related_query_name q) row) ids
  | IdExact id => joins app (q_related_query_name q) row id
  end.

Definition selects (queryset : TranslationQuerySet) (row : Translation) : bool :=
  match queryset with
  | Filtered lang filter_query =>
      bool_decide (language row = lang) && existsb (fun q => q_holds q row) filter_query
  | NoneQuerySet => false
  end.

(** Iterating a queryset over the table, and
    [queryset.select_for_update().delete()]. *)
Definition fetch (queryset : TranslationQuerySet) (table : list Translation)
  : list Translation :=
  List.filter (selects queryset) table.
Definition queryset_delete (queryset : TranslationQuerySet)
  : Mut (list Translation) unit :=
  fun table => (List.filter (fun row => negb (selects queryset row)) table, Ok tt).

(** A dict in insertion order. *)
Definition setdefault (hierarchy : list (string * list string)) (root : string)
  : list (string * list string) :=
  if existsb (fun kv => String.eqb kv.1 root) hierarchy then hierarchy
  else hierarchy ++ [(root, [])].
Definition append_to (hierarchy : list (string * list string)) (root nest : string)
  : list (string * list string) :=
  (fun kv => if String.eqb kv.1 root then (kv.1, kv.2 ++ [nest]) else kv)
    <$> hierarchy.

Fixpoint relations_hierarchy_from (hierarchy : list (string * list string))
    (relations : list string) : result (list (string * list string)) :=
  match relations with
  | [] => Ok hierarchy
  | relation :: rest =>
      let parts := split relation in
      if existsb (String.eqb "") parts then Err ValueError
      else
        let root := hd "" parts in
        let nest := join (tl parts) in
        let hierarchy := setdefault hierarchy root in
        let hierarchy :=
          if nonempty nest then append_to hierarchy root nest else hierarchy in
        relations_hierarchy_from hierarchy rest
  end.

Definition get_relations_hierarchy (relations : list string)
  : result (list (string * list string)) :=
  relations_hierarchy_from [] relations.
End utils.

Section translate.
Context (app : App).

(** The conversion of a translations queryset to a dict, keyed by
    [content_type.id] and then by [object_id]: the body of the loop
    [for obj in translations_queryset], and the loop. *)
Definition group_translation (d : gmap Z (gmap string (list Translation)))
    (obj : Translation) : gmap Z (gmap string (list Translation)) :=
  let d :=
    if bool_decide (is_Some (d !! content_type obj)) then d
    else <[content_type obj := ∅]> d in
  let by_id := default ∅ (d !! content_type obj) in
  let by_id :=
    if bool_decide (is_Some (by_id !! object_id obj)) then by_id
    else <[object_id obj := []]> by_id in
  <[content_type obj :=
      <[object_id obj := default [] (by_id !! object_id obj) ++ [obj]]> by_id]> d.

Definition group_translations (rows : list Translation)
  : gmap Z (gmap string (list Translation)) :=
  foldl group_translation ∅ rows.

(** The normalised context of [translate]: the model and [is_plural]. *)
Definition overlay_context (context : Context) : result (Model * bool) :=
  match context with
  | QuerySet model _ => Ok (model, true)
  | PyList items =>
      match items with
      | [] => Err IndexError
      | first :: _ => Ok (inst_model first, true)
      end
  | ModelInstance obj => Ok (inst_model obj, false)
  | Other => Err invalid_context
  end.

(** The loop [for obj_translation in obj_translations] of [translate_obj]. *)
Fixpoint apply_translations (model : Model) (translatable_fields : list Field)
    (obj_translations : list Translation) : Mut Instance unit :=
  fun obj =>
    match obj_translations with
    | [] => (obj, Ok tt)
    | obj_translation :: rest =>
        match get_field app model (field obj_translation) with
        | Err e => (obj, Err e)
        | Ok f =>
            let obj :=
              if bool_decide (f ∈ translatable_fields)
                 && hasattr obj (field obj_translation)
                 && nonempty (text obj_translation)
              then setattr obj (field obj_translation) (VStr (text obj_translation))
              else obj in
            apply_translations model translatable_fields rest obj
        end
    end.

Definition translate_obj (model : Model) (translatable_fields : list Field)
    (translations : gmap Z (gmap string (list Translation))) : Mut Instance unit :=
  fun obj =>
    match translations !! content_type_id app model ≫= (.!! str (inst_id obj)) with
    | None => (obj, Ok tt)
    | Some obj_translations =>
        apply_translations model translatable_fields obj_translations obj
    end.

(** [if is_plural: for obj in context: body(obj) else: body(context)] *)
Definition each_instance (body : Mut Instance unit) : Mut Context unit :=
  fun context =>
    match context with
    | QuerySet model rows =>
        let '(rows', r) := for_each body rows in (QuerySet model rows', r)
    | PyList items =>
        let '(items', r) := for_each body items in (PyList items', r)
    | ModelInstance obj =>
        let '(obj', r) := body obj in (ModelInstance obj', r)
    | Other => (Other, Ok tt)
    end.

(** The context a relation value is when [translate] is called on it; a
    manager is replaced by its [all()]. *)
Definition related_context (relation_value : Value) : Context :=
  match relation_value with
  | VNone | VStr _ => Other
  | VObj obj => ModelInstance obj
  | VManager model _ rows => QuerySet model rows
  end.

(** What the parent sees of the related context after the nested call: the
    related instance and the prefetched rows are the parent's own objects,
    the rows of a manager that was not prefetched are fresh ones. *)
Definition related_value (relation_value : Value) (translated : Context) : Value :=
  match relation_value, translated with
  | VObj _, ModelInstance obj => VObj obj
  | VManager model true _, QuerySet _ rows => VManager model true rows
  | _, _ => relation_value
  end.

(** [translate_rel]: the loop over [relations_dict.items()]; [nested] is the
    recursive call of [translate] with the same language and translations. *)
Fixpoint translate_rel (nested : list string -> Mut Context unit)
    (relations_dict : list (string * list string)) : Mut Instance unit :=
  fun obj =>
    match relations_dict with
    | [] => (obj, Ok tt)
    | (relation_key, relation_descendants) :: rest =>
        match getattr obj relation_key with
        | VNone => translate_rel nested rest obj
        | relation_value =>
            let '(translated, r) :=
              nested relation_descendants (related_context relation_value) in
            let obj :=
              match relation_value with
              | VObj _ | VManager _ _ _ =>
                  setattr obj relation_key (related_value relation_value translated)
              | _ => obj
              end in
            match r with
            | Ok _ => translate_rel nested rest obj
            | Err e => (obj, Err e)
            end
        end
    end.

(** [if translations_queryset is None]: the translations are fetched for
    the context, its relations and the language. *)
Definition given_or_fetched (context : Context) (relations : list string)
    (lang : string) (translations_queryset : TranslationsArg)
  : result TranslationsArg :=
  match translations_queryset with
  | ArgNone =>
      queryset ← get_translations app context relations (Some lang);
      Ok (ArgQuerySet queryset)
  | given => Ok given
  end.

(** [if type(translations_queryset) != dict]: a queryset is iterated over
    the table and grouped, a dict is used as it is. *)
Definition translations_dict (table : list Translation)
    (translations_queryset : TranslationsArg)
  : gmap Z (gmap string (list Translation)) :=
  match translations_queryset with
  | ArgDict d => d
  | ArgQuerySet queryset => group_translations (fetch app queryset table)
  | ArgNone => ∅
  end.

(** [translate], with the depth of the Python call stack as [fuel]. *)
Fixpoint translate_rec (fuel : nat) (table : list Translation)
    (relations : list string) (lang : option string)
    (translations_queryset : TranslationsArg) : Mut Context unit :=
  fun context =>
    match fuel with
    | O => (context, Err RecursionError)
    | S fuel =>
        mut_bind (lift (get_validated_language app lang)) (fun lang =>
        mut_bind (lift (overlay_context context)) (fun '(model, is_plural) =>
        mut_bind (lift (given_or_fetched context relations lang translations_queryset))
          (fun translations_queryset =>
        let translations := translations_dict table translations_queryset in
        mut_bind (if is_Translatable app model then
                    mut_bind (lift (get_translatable_fields app model))
                      (fun translatable_fields =>
                         each_instance (translate_obj model translatable_fields translations))
                  else mut_ret tt) (fun _ =>
        mut_bind (lift (get_relations_hierarchy relations)) (fun relations_dict =>
        if (0 <? length relations_dict)%nat then
          each_instance
            (translate_rel
               (fun relation_descendants =>
                  translate_rec fuel table relation_descendants (Some lang)
                    (ArgDict translations))
               relations_dict)
        else mut_ret tt))))) context
    end.

(** Nested calls go one relation segment deeper each time. *)
Definition depth (relations : list string) : nat :=
  foldr (fun relation d => Nat.max (length (split relation)) d) 0%nat relations.

Definition translate (table : list Translation) (context : Context)
    (relations : list string) (lang : option string)
    (translations_queryset : TranslationsArg) : Context * result unit :=
  translate_rec (S (depth relations)) table relations lang translations_queryset
    context.
End translate.

Section update_translations.
Context (app : App).

(** The normalised context of [update_translations]; [None] is the early
    [return] on an empty list. *)
Definition persist_context (context : Context) : result (option (Model * bool)) :=
  match context with
  | QuerySet model _ => Ok (Some (model, true))
  | PyList items =>
      match items with
      | [] => Ok None
      | first :: _ => Ok (Some (inst_model first, true))
      end
  | ModelInstance obj => Ok (Some (inst_model obj, false))
  | Other => Err invalid_context
  end.

(** The instances [add_translations] is called on. *)
Definition instances (context : Context) : list Instance :=
  match context with
  | QuerySet _ rows => rows
  | PyList items => items
  | ModelInstance obj => [obj]
  | Other => []
  end.

(** The text a value is stored as in a [TextField]. *)
Definition stored_text (field_value : Value) : string :=
  match field_value with
  | VStr s => s
  | other => py_str app other
  end.

(** [Translation(content_object=obj, language=lang, field=..., text=...)] *)
Definition new_translation (obj : Instance) (lang : string) (field_name : string)
    (field_value : Value) : Translation :=
  {| content_type := content_type_id app (inst_model obj);
     object_id := str (inst_id obj);
     field := field_name;
     language := lang;
     text := stored_text field_value |}.

(** [add_translations(obj)]: the rows appended to [translations_objects]. *)
Definition add_translations (lang : string) (translatable_fields : list Field)
    (obj : Instance) : list Translation :=
  omap
    (fun f =>
       let field_value := getattr obj (f_name f) in
       if truthy field_value
       then Some (new_translation obj lang (f_name f) field_value)
       else None)
    translatable_fields.

(** [Translation.objects.bulk_create(objs)] under [unique_together]. *)
Definition bulk_create (objs : list Translation) : Mut (list Translation) unit :=
  fun table =>
    if bool_decide (NoDup (unique_key <$> objs))
       && forallb (fun obj => bool_decide (unique_key obj ∉ unique_key <$> table)) objs
    then (table ++ objs, Ok tt)
    else (table, Err IntegrityError).

(** The body of [with transaction.atomic()]. *)
Definition renew (context : Context) (lang : string)
    (translatable_fields : list Field) : Mut (list Translation) unit :=
  mut_bind (lift (get_translations app context [] (Some lang)))
    (fun translations_queryset =>
  mut_bind (queryset_delete app translations_queryset) (fun _ =>
  let translations_objects :=
    flat_map (add_translations lang translatable_fields) (instances context) in
  if (0 <? length translations_objects)%nat
  then bulk_create translations_objects
  else mut_ret tt)).

Definition update_translations (context : Context) (lang : option string)
  : Mut (list Translation) unit :=
  mut_bind (lift (get_validated_language app lang)) (fun lang =>
  mut_bind (lift (persist_context context)) (fun normalised =>
  match normalised with
  | None => mut_ret tt
  | Some (model, is_plural) =>
      if is_Translatable app model then
        mut_bind (lift (get_translatable_fields app model))
          (fun translatable_fields =>
             try_reraise (atomic (renew context lang translatable_fields)))
      else mut_ret tt
  end)).
End update_translations.

(** ** A sample project

    The continents, countries and cities of the docstrings, a model that is
    not translatable, and one whose [TranslatableMeta.fields] repeats a
    name. *)

Definition Continent : Model :=
  {| app_label := "sample"; class_module := "sample.models"; class_name := "Continent" |}.
Definition Country : Model :=
  {| app_label := "sample"; class_module := "sample.models"; class_name := "Country" |}.
Definition State : Model :=
  {| app_label := "sample"; class_module := "sample.models"; class_name := "State" |}.
Definition City : Model :=
  {| app_label := "sample"; class_module := "sample.models"; class_name := "City" |}.
Definition Timezone : Model :=
  {| app_label := "sample"; class_module := "sample.models"; class_name := "Timezone" |}.
Definition Badge : Model :=
  {| app_label := "sample"; class_module := "sample.models"; class_name := "Badge" |}.

Definition column (name : string) (kind : FieldKind) : Field :=
  {| f_name := name; f_kind := kind; f_choices := false; f_remote := None |}.
Definition relation (name remote_name : string) (related_model : Model) : Field :=
  {| f_name := name; f_kind := OtherField; f_choices := false;
     f_remote := Some (remote_name, related_model) |}.

Definition sample_fields (cls : Model) : list Field :=
  if decide (cls = Continent) then
    [column "id" OtherField; column "code" CharField; column "name" CharField;
     column "denonym" TextField; column "contact" EmailField;
     relation "countries" "continent" Country]
  else if decide (cls = Country) then
    [column "id" OtherField; column "name" CharField; column "code" CharField;
     relation "continent" "countries" Continent;
     relation "states" "country" State]
  else if decide (cls = State) then
    [column "id" OtherField; column "name" CharField;
     relation "country" "states" Country;
     relation "cities" "state" City]
  else if decide (cls = City) then
    [column "id" OtherField; column "name" CharField;
     relation "state" "cities" State]
  else if decide (cls = Timezone) then
    [column "id" OtherField; column "name" CharField]
  else if decide (cls = Badge) then
    [column "id" OtherField; column "name" CharField]
  else [].

Definition sample_content_type_id (cls : Model) : Z :=
  if decide (cls = Continent) then 7
  else if decide (cls = Country) then 8
  else if decide (cls = State) then 9
  else if decide (cls = City) then 10
  else if decide (cls = Timezone) then 11
  else if decide (cls = Badge) then 12
  else 0.

(** The ids of the rows stored in the table of each model. *)
Definition sample_rows (cls : Model) : list Z :=
  if decide (cls = Continent) then [1; 2]%Z
  else if decide (cls = Country) then [1; 2]%Z
  else if decide (cls = State) then [1]%Z
  else if decide (cls = City) then [1]%Z
  else if decide (cls = Badge) then [1]%Z
  else [].

(** The store's joins: a generic relation joins a row to the stored entity
    of its content type whose id its object id is the text of; the
    countries with ids 1 and 2 belong to the continent with id 1. *)
Definition sample_joins (name : string) (row : Translation) (id : Z) : bool :=
  let owned_by (cls : Model) :=
    bool_decide (content_type row = sample_content_type_id cls) in
  let owner (cls : Model) :=
    owned_by cls && bool_decide (id ∈ sample_rows cls)
    && String.eqb (object_id row) (str id) in
  if String.eqb name "sample_continent" then owner Continent
  else if String.eqb name "sample_country" then owner Country
  else if String.eqb name "sample_state" then owner State
  else if String.eqb name "sample_city" then owner City
  else if String.eqb name "sample_badge" then owner Badge
  else if String.eqb name "sample_country__continent" then
    owned_by Country && bool_decide (id = 1%Z)
    && (String.eqb (object_id row) "1" || String.eqb (object_id row) "2")
  else false.

Definition sample : App :=
  {| LANGUAGES := ["en"; "de"];
     get_language := Some "en";
     is_Translatable := fun cls =>
       bool_decide (cls ∈ [Continent; Country; State; City; Badge]);
     local_fields := sample_fields;
     has_TranslatableMeta := fun _ => true;
     TranslatableMeta_fields := fun cls =>
       if decide (cls = Country) then Some ["name"]
       else if decide (cls = Badge) then Some ["name"; "name"]
       else None;
     content_type_id := sample_content_type_id;
     py_str := fun _ => "object";
     joins := sample_joins |}.

Definition instance_of (cls : Model) (id : Z) (attrs : list (string * Value))
  : Instance :=
  mkInstance cls id (list_to_map attrs).

Definition europe : Instance :=
  instance_of Continent 1
    [("code", VStr "EU"); ("name", VStr "Europe"); ("denonym", VStr "European");
     ("contact", VStr "eu@example.org")].
Definition europa : Instance :=
  instance_of Continent 1
    [("code", VStr "EU"); ("name", VStr "Europa"); ("denonym", VStr "Europaeisch");
     ("contact", VStr "eu@example.org")].
(** A continent that was never saved: no row of the table of continents has
    its id. *)
Definition atlantis : Instance :=
  instance_of Continent 9 [("code", VStr "AT"); ("name", VStr "Atlantis")].
Definition atlantide : Instance :=
  instance_of Continent 9 [("code", VStr "AT"); ("name", VStr "Atlantide")].
Definition utc : Instance := instance_of Timezone 1 [("name", VStr "UTC")].
Definition gold : Instance := instance_of Badge 1 [("name", VStr "Gold")].

Definition row (ct : Z) (id fld lang txt : string) : Translation :=
  {| content_type := ct; object_id := id; field := fld; language := lang; text := txt |}.

(** ** The relation hierarchy as the specification words it

    Section 4.3: group by first segment; each group's value is the list of
    the remaining joined segments, omitted when the path had exactly one
    segment; first-level keys in first-occurrence order. *)

Definition first_segment (path : string) : string := hd "" (split path).
Definition remaining_segments (path : string) : string := join (tl (split path)).

Fixpoint first_occurrences (keys : list string) : list string :=
  match keys with
  | [] => []
  | key :: rest =>
      key :: List.filter (fun k => negb (String.eqb k key)) (first_occurrences rest)
  end.

Definition group_of (paths : list string) (key : string) : list string :=
  omap
    (fun path =>
       if String.eqb (first_segment path) key && (1 <? length (split path))%nat
       then Some (remaining_segments path)
       else None)
    paths.

Definition grouped_hierarchy (paths : list string) : list (string * list string) :=
  (fun key => (key, group_of paths key)) <$> first_occurrences (first_segment <$> paths).

(** ** Properties of the project the theorems rely on *)

(** A clause on the reverse name of the generic relation of [cls] is run by
    the store as an inner join of the side table with the table of [cls],
    on the content type and on [object_id = id], which the database
    compares by its own rules.  What the theorems need of the join is asked
    of the one owner they are about.

    The owner is stored: its row is in the table of [cls], so the join
    reaches it from every row that carries the content type of [cls] and
    the text of its id.  It fails for an instance that was never saved. *)
Definition joins_stored_owner (app : App) (cls : Model) (id : Z) : Prop :=
  forall name row,
    get_related_query_name app cls "translations" = Ok name ->
    content_type row = content_type_id app cls ->
    object_id row = str id ->
    joins app name row id = true.

(** The join reaches the owner from no other row: the database takes an
    [object_id] for the id only when it is the text of the id.  It fails
    where the database also matches another spelling of the number. *)
Definition joins_by_text_only (app : App) (cls : Model) (id : Z) : Prop :=
  forall name row,
    get_related_query_name app cls "translations" = Ok name ->
    joins app name row id = true ->
    content_type row = content_type_id app cls /\ object_id row = str id.

(** The rows of the table that belong to an entity in a language. *)
Definition rows_of (app : App) (table : list Translation) (cls : Model) (id : Z)
    (lang : string) : list Translation :=
  List.filter
    (fun row =>
       bool_decide (content_type row = content_type_id app cls
                    /\ object_id row = str id /\ language row = lang))
    table.

(** [segment_at app model parts cls segment]: walking [parts] from [model]
    through real relations reaches [segment], to be looked up on [cls]. *)
Inductive segment_at (app : App) : Model -> list string -> Model -> string -> Prop :=
| segment_here model root branch :
    segment_at app model (root :: branch) model root
| segment_next model root branch f related_query_name branch_model cls segment :
    get_field app model root = Ok f ->
    f_remote f = Some (related_query_name, branch_model) ->
    segment_at app branch_model branch cls segment ->
    segment_at app model (root :: branch) cls segment.

(** The rows a dict of translations lists for an instance of [model]. *)
Definition listed_for (app : App)
    (translations : gmap Z (gmap string (list Translation)))
    (model : Model) (obj : Instance) (row : Translation) : Prop :=
  exists rows,
    translations !! content_type_id app model ≫= (.!! str (inst_id obj)) = Some rows
    /\ row ∈ rows.

(** The attribute holds a related instance or a related manager. *)
Definition holds_related (value : option Value) : Prop :=
  match value with
  | Some (VObj _) | Some (VManager _ _ _) => True
  | _ => False
  end.

(** The same entity: the same class and the same id. *)
Definition same_entity (obj obj' : Instance) : Prop :=
  inst_model obj' = inst_model obj /\ inst_id obj' = inst_id obj.

(** What a relation attribute that held [before] holds once the nested call
    on its related context has left [translated]: the related instance as
    the call left it, or the prefetched rows as the call left them. *)
Definition overlaid_relation (before : Value) (translated : Context)
    (after : option Value) : Prop :=
  match before, translated with
  | VObj _, ModelInstance obj' => after = Some (VObj obj')
  | VManager model true _, QuerySet _ rows' => after = Some (VManager model true rows')
  | _, _ => False
  end.

(** [c'] has, at every position of [c], an instance related by [P] to the
    one [c] has there. *)
Definition elementwise (P : Instance -> Instance -> Prop) (c c' : Context) : Prop :=
  forall i obj,
    instances c !! i = Some obj ->
    exists obj', instances c' !! i = Some obj' /\ P obj obj'.

(** ** The chain of reverse names along a relation

    [remote_names app model parts] walks [parts] from [model] and collects
    [field.remote_field.name] of every segment, first segment first. *)
Fixpoint remote_names (app : App) (model : Model) (parts : list string)
  : result (list string) :=
  match parts with
  | [] => Ok []
  | root :: branch =>
      f ← get_field app model root;
      match f_remote f with
      | None => Err AttributeError
      | Some (related_query_name, branch_model) =>
          names ← remote_names app branch_model branch;
          Ok (related_query_name :: names)
      end
  end.

(** ** The methods of [Translatable] ([models.py])

    The methods call the utilities with the keyword
    [iso_alpha_2_language_code].  A Python call binds each keyword to a
    parameter of that name; a keyword the callee does not declare is a
    [TypeError], raised before the body runs. *)

(** The value passed under a keyword. *)
Inductive KeywordValue :=
| KwLang (lang : option string)
| KwTranslations (translations_queryset : TranslationsArg).

(** How a call ends: it returns, the binding of its keywords fails
    ([TypeError], with the offending keyword), or the body raises. *)
Inductive call_result (A : Type) :=
| Returned (value : A)
| UnexpectedKeyword (name : string)
| Raised (e : exn).
Arguments Returned {A} value.
Arguments UnexpectedKeyword {A} name.
Arguments Raised {A} e.

Definition of_result {A} (r : result A) : call_result A :=
  match r with
  | Ok value => Returned value
  | Err e => Raised e
  end.

(** The first keyword of the call that the callee does not declare. *)
Definition unexpected_keyword (declared : list string)
    (kwargs : list (string * KeywordValue)) : option string :=
  List.find (fun name => negb (bool_decide (name ∈ declared))) (kwargs.*1).

(** The value bound to the keyword-only parameter [lang=None]. *)
Definition bound_lang (kwargs : list (string * KeywordValue)) : option string :=
  match List.find (fun kv => String.eqb kv.1 "lang") kwargs with
  | Some (_, KwLang lang) => lang
  | _ => None
  end.

(** The value bound to [translations_queryset=None]. *)
Definition bound_translations (kwargs : list (string * KeywordValue))
  : TranslationsArg :=
  match List.find (fun kv => String.eqb kv.1 "translations_queryset") kwargs with
  | Some (_, KwTranslations given) => given
  | _ => ArgNone
  end.

(** [update_translations(context, **kwargs)], declared as
    [update_translations(context, lang=None)]. *)
Definition call_update_translations (app : App) (context : Context)
    (kwargs : list (string * KeywordValue))
  : list Translation -> list Translation * call_result unit :=
  fun table =>
    match unexpected_keyword ["lang"] kwargs with
    | Some name => (table, UnexpectedKeyword name)
    | None =>
        let '(table', r) := update_translations app context (bound_lang kwargs) table in
        (table', of_result r)
    end.

(** [get_translations(context, *relations, **kwargs)], declared as
    [get_translations(context, *relations, lang=None)]. *)
Definition call_get_translations (app : App) (context : Context)
    (relations : list string) (kwargs : list (string * KeywordValue))
  : call_result TranslationQuerySet :=
  match unexpected_keyword ["lang"] kwargs with
  | Some name => UnexpectedKeyword name
  | None => of_result (get_translations app context relations (bound_lang kwargs))
  end.

(** [translate(context, *relations, **kwargs)], declared as
    [translate(context, *relations, lang=None, translations_queryset=None)]. *)
Definition call_translate (app : App) (table : list Translation) (context : Context)
    (relations : list string) (kwargs : list (string * KeywordValue))
  : Context * call_result unit :=
  match unexpected_keyword ["lang"; "translations_queryset"] kwargs with
  | Some name => (context, UnexpectedKeyword name)
  | None =>
      let '(context', r) :=
        translate app table context relations (bound_lang kwargs)
          (bound_translations kwargs) in
      (context', of_result r)
  end.

(** [Translatable.update_translations] *)
Definition Translatable_update_translations (app : App) (self : Instance)
    (iso_alpha_2_language_code : option string)
  : list Translation -> list Translation * call_result unit :=
  call_update_translations app (ModelInstance self)
    [("iso_alpha_2_language_code", KwLang iso_alpha_2_language_code)].

(** [Translatable.get_translations] *)
Definition Translatable_get_translations (app : App) (self : Instance)
    (relations : list string) (iso_alpha_2_language_code : option string)
  : call_result TranslationQuerySet :=
  call_get_translations app (ModelInstance self) relations
    [("iso_alpha_2_language_code", KwLang iso_alpha_2_language_code)].

(** [Translatable.get_translated]: [translate(...)], then [return self]. *)
Definition Translatable_get_translated (app : App) (table : list Translation)
    (self : Instance) (relations : list string)
    (iso_alpha_2_language_code : option string)
    (translations_queryset : TranslationsArg)
  : Instance * call_result Instance :=
  let '(context', r) :=
    call_translate app table (ModelInstance self) relations
      [("iso_alpha_2_language_code", KwLang iso_alpha_2_language_code);
       ("translations_queryset", KwTranslations translations_queryset)] in
  let self' :=
    match context' with
    | ModelInstance obj => obj
    | _ => self
    end in
  (self',
   match r with
   | Returned _ => Returned self'
   | UnexpectedKeyword name => UnexpectedKeyword name
   | Raised e => Raised e
   end).

(** ** The two halves of [translate]

    "translate context itself": the block of [translate] that overlays the
    instances of the context when their model is translatable. *)
Definition translate_itself (app : App) (model : Model)
    (translations : gmap Z (gmap string (list Translation))) : Mut Context unit :=
  if is_Translatable app model then
    mut_bind (lift (get_translatable_fields app model))
      (fun translatable_fields =>
         each_instance (translate_obj app model translatable_fields translations))
  else mut_ret tt.

(** "translate context relations": the block that walks the hierarchy, with
    [fuel] levels left for the nested calls. *)
Definition translate_relations (app : App) (fuel : nat) (table : list Translation)
    (relations : list string) (tag : string)
    (translations : gmap Z (gmap string (list Translation))) : Mut Context unit :=
  mut_bind (lift (get_relations_hierarchy relations))
    (fun relations_dict =>
       if (0 <? length relations_dict)%nat then
         each_instance
           (translate_rel
              (fun relation_descendants =>
                 translate_rec app fuel table relation_descendants (Some tag)
                   (ArgDict translations))
              relations_dict)
       else mut_ret tt).

(** The tests of [translate_obj] on one row: the field exists and is
    translatable, the instance has the attribute, the text is not empty. *)
Definition applies (app : App) (model : Model) (translatable_fields : list Field)
    (obj : Instance) (obj_translation : Translation) : bool :=
  match get_field app model (field obj_translation) with
  | Ok f =>
      bool_decide (f ∈ translatable_fields)
      && hasattr obj (field obj_translation)
      && nonempty (text obj_translation)
  | Err _ => false
  end.

(** * Theorems *)

(** ** Splitting and joining *)

Lemma split_sep (rest : string) :
  split (String "_" (String "_" rest)) = "" :: split rest.
Proof. reflexivity. Qed.

Lemma split_char (c : ascii) (rest : string) :
  (c = "_"%char -> forall rest', rest <> String "_" rest') ->
  split (String c rest) = extend c (split rest).
Proof.
  intros Hc. cbn [split]. destruct rest as [|c' rest']; [done|].
  destruct (Ascii.eqb_spec c "_") as [->|]; [|done].
  destruct (Ascii.eqb_spec c' "_") as [->|]; [|done].
  by destruct (Hc eq_refl rest').
Qed.

(** Induction along the scan of [split]. *)
Lemma split_scan_ind (P : string -> Prop) :
  P "" ->
  (forall rest, P rest -> P (String "_" (String "_" rest))) ->
  (forall c rest,
      (c = "_"%char -> forall rest', rest <> String "_" rest') ->
      P rest -> P (String c rest)) ->
  forall s, P s.
Proof.
  intros Hnil Hsep Hchar s.
  cut (P s /\ forall c, P (String c s)); [tauto|].
  induction s as [|c' rest [IH1 IH2]].
  - split; [done|]. intros c. apply Hchar; [|done]. by intros _ rest'.
  - split; [apply IH2|]. intros c.
    destruct (Ascii.ascii_dec c "_") as [->|Hc];
      [destruct (Ascii.ascii_dec c' "_") as [->|Hc']|].
    + by apply Hsep.
    + apply Hchar; [|apply IH2]. intros _ rest' [= ? ?]. done.
    + apply Hchar; [|apply IH2]. done.
Qed.

Lemma split_cons (s : string) : exists part parts, split s = part :: parts.
Proof.
  induction s as [|rest IH|c rest Hc IH] using split_scan_ind.
  - by eexists _, _.
  - by eexists _, _.
  - rewrite split_char by done. destruct IH as (part & parts & ->).
    by eexists _, _.
Qed.

Lemma join_extend (c : ascii) (part : string) (parts : list string) :
  join (String c part :: parts) = String c (join (part :: parts)).
Proof. by destruct parts. Qed.

Lemma join_split (s : string) : join (split s) = s.
Proof.
  induction s as [|rest IH|c rest Hc IH] using split_scan_ind.
  - done.
  - rewrite split_sep. destruct (split_cons rest) as (part & parts & Hs).
    rewrite Hs in *. cbn. by rewrite <- IH.
  - rewrite split_char by done. destruct (split_cons rest) as (part & parts & Hs).
    rewrite Hs in *. cbn [extend]. by rewrite join_extend, IH.
Qed.

(** The recursion of [get_related_query_name] on the joined branch sees the
    branch again. *)
Lemma split_join_branch (s root : string) (branch : list string) :
  split s = root :: branch -> branch <> [] -> split (join branch) = branch.
Proof.
  revert root branch.
  induction s as [|rest IH|c rest Hc IH] using split_scan_ind;
    intros root branch Hs Hbranch.
  - by injection Hs as <- <-.
  - rewrite split_sep in Hs. injection Hs as <- <-. by rewrite join_split.
  - rewrite split_char in Hs by done.
    destruct (split_cons rest) as (part & parts & Hrest). rewrite Hrest in Hs.
    injection Hs as <- <-. by eapply IH.
Qed.

(** ** Language validation *)

Lemma validate_language_Ok (app : App) (value : option string) (tag : string) :
  validate_language app value = Ok tag -> value = Some tag /\ tag ∈ LANGUAGES app.
Proof.
  destruct value as [tag'|]; [|done]. cbn. case_bool_decide; [|done].
  by intros [= ->].
Qed.

(** A validated language validates again, to itself. *)
Lemma get_validated_language_again (app : App) (lang : option string) (tag : string) :
  get_validated_language app lang = Ok tag ->
  get_validated_language app (Some tag) = Ok tag.
Proof.
  unfold get_validated_language. intros H.
  destruct (lang_given (Some tag)) eqn:Hgiven.
  - destruct (validate_language_Ok _ _ _ H) as [_ Hin].
    cbn. by rewrite bool_decide_eq_true_2.
  - destruct (lang_given lang) eqn:Hlang; [|done].
    destruct (validate_language_Ok _ _ _ H) as [-> _]. congruence.
Qed.

(** C10. An empty-string tag is handled exactly as an absent one:
    [get_validated_language("")] validates the active language, whatever the
    supported languages are, and so does [get_validated_language(None)]. *)
Theorem empty_tag_means_active_language (app : App) :
  get_validated_language app (Some "") = validate_language app (get_language app)
  /\ get_validated_language app None = validate_language app (get_language app).
Proof. split; reflexivity. Qed.

(** ** Reverse relation names *)

Lemma get_field_Err (app : App) (model : Model) (name : string) (e : exn) :
  get_field app model name = Err e -> e = FieldDoesNotExist.
Proof. unfold get_field. destruct (List.find _ _); congruence. Qed.

Lemma get_field_name (app : App) (model : Model) (name : string) (f : Field) :
  get_field app model name = Ok f -> f_name f = name.
Proof.
  unfold get_field. destruct (List.find _ _) eqn:Hfind; [|done].
  intros [= <-]. apply find_some in Hfind as [_ Hname].
  by apply bool_decide_eq_true_1 in Hname.
Qed.

Lemma get_related_query_name_parts (app : App) (model : Model) (relation root : string)
    (branch : list string) :
  split relation = root :: branch ->
  get_related_query_name app model relation
  = related_query_name_of app model root branch.
Proof. unfold get_related_query_name. by intros ->. Qed.

(** The recursion of the source, on the joined branch. *)
Lemma get_related_query_name_unfold (app : App) (model : Model)
    (relation root : string) (branch : list string) :
  split relation = root :: branch ->
  get_related_query_name app model relation
  = (f ← get_field app model root;
     match f_remote f with
     | None => Err AttributeError
     | Some (related_query_name, branch_model) =>
         match branch with
         | [] => Ok related_query_name
         | _ :: _ =>
             branch_related_query_name ←
               get_related_query_name app branch_model (join branch);
             Ok (branch_related_query_name +:+ "__" +:+ related_query_name)
         end
     end).
Proof.
  intros Hs. rewrite (get_related_query_name_parts _ _ _ _ _ Hs).
  destruct branch as [|branch_root branch_rest]; [done|].
  cbn [related_query_name_of]. destruct (get_field app model root) as [f|]; [|done].
  cbn. destruct (f_remote f) as [[name branch_model]|]; [|done].
  assert (split (join (branch_root :: branch_rest)) = branch_root :: branch_rest) as Hj
    by (by eapply split_join_branch).
  by rewrite (get_related_query_name_parts _ _ _ _ _ Hj).
Qed.

Lemma related_query_name_of_Ok (app : App) (branch : list string) :
  forall model root,
    (forall cls segment,
        segment_at app model (root :: branch) cls segment ->
        exists f r, get_field app cls segment = Ok f /\ f_remote f = Some r) ->
    exists name, related_query_name_of app model root branch = Ok name.
Proof.
  induction branch as [|branch_root branch_rest IH]; intros model root Hall.
  - destruct (Hall model root) as (f & [name bm] & Hf & Hr); [constructor|].
    exists name. cbn. rewrite Hf. cbn. by rewrite Hr.
  - destruct (Hall model root) as (f & [name bm] & Hf & Hr); [constructor|].
    destruct (IH bm branch_root) as [b Hb].
    { intros cls segment Hseg. apply Hall. by eapply segment_next. }
    exists (b +:+ "__" +:+ name). cbn [related_query_name_of].
    rewrite Hf. cbn. rewrite Hr, Hb. done.
Qed.

Lemma related_query_name_of_unknown (app : App) (parts : list string) :
  forall model cls segment,
    segment_at app model parts cls segment ->
    forall root branch, parts = root :: branch ->
    (get_field app cls segment = Err FieldDoesNotExist ->
     related_query_name_of app model root branch = Err FieldDoesNotExist)
    /\ (forall f, get_field app cls segment = Ok f -> f_remote f = None ->
        related_query_name_of app model root branch = Err AttributeError).
Proof.
  intros model cls segment Hseg.
  induction Hseg as [model root' branch'
                    |model root' branch' f name bm cls segment Hf Hr Hseg IH];
    intros root branch [= <- <-].
  - split.
    + intros Hnone. destruct branch'; cbn; by rewrite Hnone.
    + intros f Hf Hr. destruct branch'; cbn; rewrite Hf; cbn; by rewrite Hr.
  - inversion Hseg; subst;
      (edestruct IH as [IH1 IH2]; [done|]; split;
       [intros Hnone; cbn [related_query_name_of]; rewrite Hf; cbn; rewrite Hr;
        by rewrite IH1
       |intros f' Hf' Hr'; cbn [related_query_name_of]; rewrite Hf; cbn; rewrite Hr;
        by rewrite (IH2 f')]).
Qed.

(** C8 (as amended). For a path of several segments, the reverse name is
    the reverse name of the remaining path, taken on the first related
    model, then the separator, then the reverse name of the first segment
    on the root model: the call on the joined branch decides the outcome,
    an error included.  The call returns a name when every segment names a
    relation on its model; it raises [FieldDoesNotExist] when the first
    segment that is no relation names no field of its model, and
    [AttributeError] when that segment names a field that has no remote
    side. *)
Theorem related_query_name_right_to_left (app : App) (model : Model)
    (relation root branch_root : string) (branch_rest : list string) :
  split relation = root :: branch_root :: branch_rest ->
  (forall f related_query_name branch_model,
      get_field app model root = Ok f ->
      f_remote f = Some (related_query_name, branch_model) ->
      get_related_query_name app model relation
      = (branch_related_query_name ←
           get_related_query_name app branch_model
             (join (branch_root :: branch_rest));
         Ok (branch_related_query_name +:+ LOOKUP_SEP +:+ related_query_name)))
  /\ ((forall cls segment,
          segment_at app model (split relation) cls segment ->
          exists f r, get_field app cls segment = Ok f /\ f_remote f = Some r) ->
      exists name, get_related_query_name app model relation = Ok name)
  /\ (forall cls segment,
         segment_at app model (split relation) cls segment ->
         get_field app cls segment = Err FieldDoesNotExist ->
         get_related_query_name app model relation = Err FieldDoesNotExist)
  /\ (forall cls segment f,
         segment_at app model (split relation) cls segment ->
         get_field app cls segment = Ok f ->
         f_remote f = None ->
         get_related_query_name app model relation = Err AttributeError).
Proof.
  intros Hs. split; [|split; [|split]].
  - intros f name bm Hf Hr.
    rewrite (get_related_query_name_unfold _ _ _ _ _ Hs), Hf. cbn. by rewrite Hr.
  - intros Hall. rewrite (get_related_query_name_parts _ _ _ _ _ Hs).
    apply related_query_name_of_Ok. by rewrite <- Hs.
  - intros cls segment Hseg Hnone.
    rewrite (get_related_query_name_parts _ _ _ _ _ Hs).
    rewrite Hs in Hseg.
    by apply (related_query_name_of_unknown _ _ _ _ _ Hseg _ _ eq_refl).
  - intros cls segment f Hseg Hf Hr.
    rewrite (get_related_query_name_parts _ _ _ _ _ Hs).
    rewrite Hs in Hseg.
    by eapply (related_query_name_of_unknown _ _ _ _ _ Hseg _ _ eq_refl).
Qed.

(** The docstring's example: cities are reached from a continent through
    [state__country__continent]. *)
Lemma related_query_name_right_to_left_witness :
  split "countries__states__cities" = ["countries"; "states"; "cities"]
  /\ get_related_query_name sample Continent "countries__states__cities"
     = Ok "state__country__continent".
Proof.
  split; [reflexivity|].
  destruct (related_query_name_right_to_left sample Continent
              "countries__states__cities" "countries" "states" ["cities"]
              eq_refl) as [Hcompose _].
  rewrite (Hcompose (relation "countries" "continent" Country) "continent" Country
             eq_refl eq_refl).
  reflexivity.
Defined.

(** C8, counterexample to the claim as stated. [name] is a plain column of
    [Country], not a relation, and the path through it raises
    [AttributeError], not [FieldDoesNotExist]. *)
Lemma related_query_name_non_relation_segment :
  get_field sample Country "name" = Ok (column "name" CharField)
  /\ f_remote (column "name" CharField) = None
  /\ get_related_query_name sample Continent "countries__name" = Err AttributeError
  /\ get_related_query_name sample Continent "countries__name"
     <> Err FieldDoesNotExist.
Proof. repeat split; try reflexivity. discriminate. Qed.

(** ** The relation hierarchy *)

Lemma first_occurrences_elem (keys : list string) (k : string) :
  k ∈ first_occurrences keys <-> k ∈ keys.
Proof.
  induction keys as [|key rest IH]; [done|]. cbn [first_occurrences].
  rewrite !elem_of_cons, list_elem_of_In, filter_In, <- list_elem_of_In, IH.
  rewrite negb_true_iff, String.eqb_neq.
  destruct (decide (k = key)); tauto.
Qed.

Lemma first_occurrences_snoc (keys : list string) (key : string) :
  first_occurrences (keys ++ [key])
  = if bool_decide (key ∈ keys) then first_occurrences keys
    else first_occurrences keys ++ [key].
Proof.
  induction keys as [|k rest IH]; [done|].
  cbn [app first_occurrences]. rewrite IH.
  destruct (decide (key = k)) as [->|Hne].
  - rewrite (bool_decide_eq_true_2 (k ∈ k :: rest)) by apply list_elem_of_here.
    case_bool_decide; [done|].
    rewrite List.filter_app. cbn. rewrite String.eqb_refl. cbn.
    by rewrite app_nil_r.
  - case_bool_decide as Hin.
    + by rewrite bool_decide_eq_true_2 by by apply list_elem_of_further.
    + rewrite bool_decide_eq_false_2 by (rewrite elem_of_cons; tauto).
      rewrite List.filter_app. cbn.
      by apply String.eqb_neq in Hne as ->.
Qed.

Lemma group_of_snoc (paths : list string) (path key : string) :
  group_of (paths ++ [path]) key
  = group_of paths key ++
    (if String.eqb (first_segment path) key && (1 <? length (split path))%nat
     then [remaining_segments path] else []).
Proof.
  unfold group_of. rewrite omap_app. f_equal. cbn.
  by destruct (_ && _).
Qed.

Lemma group_of_absent (paths : list string) (key : string) :
  key ∉ first_segment <$> paths -> group_of paths key = [].
Proof.
  induction paths as [|path rest IH]; [done|]. intros Hnot.
  rewrite fmap_cons, not_elem_of_cons in Hnot. destruct Hnot as [Hne Hrest].
  unfold group_of in *. cbn.
  apply not_eq_sym, String.eqb_neq in Hne as ->. cbn. by apply IH.
Qed.

Lemma grouped_hierarchy_has_key (paths : list string) (root : string) :
  existsb (fun kv : string * list string => String.eqb kv.1 root)
    (grouped_hierarchy paths)
  = bool_decide (root ∈ first_segment <$> paths).
Proof.
  unfold grouped_hierarchy.
  rewrite <- (bool_decide_ext _ _ (first_occurrences_elem (first_segment <$> paths) root)).
  induction (first_occurrences (first_segment <$> paths)) as [|k ks IH]; [done|].
  cbn. destruct (String.eqb_spec k root) as [->|Hne].
  - by rewrite bool_decide_eq_true_2 by apply list_elem_of_here.
  - cbn. rewrite IH. apply bool_decide_ext. rewrite elem_of_cons.
    split; [tauto|]. intros [->|]; done.
Qed.

(** A path without empty segments has a remainder exactly when it has
    several segments. *)
Lemma join_nonempty (parts : list string) :
  "" ∉ parts -> nonempty (join parts) = (0 <? length parts)%nat.
Proof.
  destruct parts as [|part rest]; [done|]. intros Hparts.
  rewrite not_elem_of_cons in Hparts. destruct Hparts as [Hpart _].
  destruct part as [|c part]; [done|]. by destruct rest.
Qed.

Lemma remaining_nonempty (path : string) :
  "" ∉ split path ->
  nonempty (join (tl (split path))) = (1 <? length (split path))%nat.
Proof.
  destruct (split_cons path) as (part & parts & ->). intros Hparts.
  rewrite not_elem_of_cons in Hparts. destruct Hparts as [_ Hparts].
  cbn [tl]. rewrite join_nonempty by done. by destruct parts.
Qed.

Lemma has_empty_segment (parts : list string) :
  existsb (String.eqb "") parts = bool_decide ("" ∈ parts).
Proof.
  induction parts as [|part rest IH]; [done|]. cbn [existsb].
  destruct (String.eqb_spec "" part) as [<-|Hne].
  - by rewrite bool_decide_eq_true_2 by apply list_elem_of_here.
  - cbn [orb]. rewrite IH. apply bool_decide_ext. rewrite elem_of_cons. tauto.
Qed.

(** One turn of the loop takes the grouping of the paths seen so far to the
    grouping with the next path added. *)
Lemma grouped_hierarchy_snoc (paths : list string) (path : string) :
  grouped_hierarchy (paths ++ [path])
  = let hierarchy := setdefault (grouped_hierarchy paths) (first_segment path) in
    if (1 <? length (split path))%nat
    then append_to hierarchy (first_segment path) (remaining_segments path)
    else hierarchy.
Proof.
  cbn zeta. unfold setdefault. rewrite grouped_hierarchy_has_key.
  unfold grouped_hierarchy at 1. rewrite fmap_app. cbn [fmap list_fmap].
  rewrite first_occurrences_snoc.
  set (root := first_segment path). set (keys := first_segment <$> paths).
  assert (forall ks : list string,
    root ∉ ks ->
    (fun key => (key, group_of (paths ++ [path]) key)) <$> ks
    = (fun key => (key, group_of paths key)) <$> ks) as Hother.
  { intros ks Hks. apply list_fmap_ext. intros i key Hkey.
    rewrite group_of_snoc. fold root.
    assert (root <> key) as Hne
      by (intros <-; apply Hks; by eapply list_elem_of_lookup_2).
    apply String.eqb_neq in Hne as ->. cbn. by rewrite app_nil_r. }
  assert (forall ks : list string,
    root ∉ ks ->
    forall nest,
    append_to ((fun key => (key, group_of paths key)) <$> ks) root nest
    = (fun key => (key, group_of paths key)) <$> ks) as Hkeep.
  { intros ks Hks nest. unfold append_to. rewrite <- list_fmap_compose.
    apply list_fmap_ext. intros i key Hkey. cbn.
    assert (key <> root) as Hne
      by (intros ->; apply Hks; by eapply list_elem_of_lookup_2).
    by apply String.eqb_neq in Hne as ->. }
  case_bool_decide as Hin.
  - fold (grouped_hierarchy paths). unfold grouped_hierarchy, append_to.
    destruct (1 <? length (split path))%nat eqn:Hlen.
    + rewrite <- list_fmap_compose. apply list_fmap_ext. intros i key Hkey. cbn.
      rewrite group_of_snoc, Hlen, andb_true_r. fold root.
      rewrite (String.eqb_sym root key).
      destruct (String.eqb key root); [done|]. by rewrite app_nil_r.
    + apply list_fmap_ext. intros i key Hkey.
      rewrite group_of_snoc, Hlen, andb_false_r. by rewrite app_nil_r.
  - assert (root ∉ first_occurrences keys) as Hfresh
      by by rewrite first_occurrences_elem.
    rewrite fmap_app, (Hother _ Hfresh). cbn [fmap list_fmap].
    rewrite group_of_snoc, (group_of_absent _ _ Hin). fold root.
    rewrite String.eqb_refl. cbn [andb app].
    fold keys. unfold grouped_hierarchy. fold keys.
    destruct (1 <? length (split path))%nat eqn:Hlen; [|done].
    unfold append_to at 1. rewrite fmap_app.
    fold (append_to ((fun key => (key, group_of paths key)) <$> first_occurrences keys)
            root (remaining_segments path)).
    rewrite (Hkeep _ Hfresh). cbn. by rewrite String.eqb_refl.
Qed.

Lemma relations_hierarchy_from_grouped (relations seen : list string) :
  (forall relation, relation ∈ relations -> "" ∉ split relation) ->
  relations_hierarchy_from (grouped_hierarchy seen) relations
  = Ok (grouped_hierarchy (seen ++ relations)).
Proof.
  revert seen. induction relations as [|relation rest IH]; intros seen Hsegments.
  - by rewrite app_nil_r.
  - cbn [relations_hierarchy_from].
    assert ("" ∉ split relation) as Hrel by (apply Hsegments, list_elem_of_here).
    rewrite has_empty_segment, bool_decide_eq_false_2 by done.
    rewrite remaining_nonempty by done.
    pose proof (grouped_hierarchy_snoc seen relation) as Hstep. cbn zeta in Hstep.
    unfold first_segment, remaining_segments in Hstep. rewrite <- Hstep.
    rewrite IH by (intros r Hr; by apply Hsegments, list_elem_of_further).
    by rewrite <- app_assoc.
Qed.

(** C7. For paths whose segments are all non-empty, the hierarchy is the
    grouping by first segment: each first segment, in first-occurrence order,
    is mapped to the joined remaining segments of its paths, a path of one
    segment adding nothing to its group; in particular three paths under
    two roots give the hierarchy of the specification's example. *)
Theorem relations_hierarchy_groups (relations : list string) :
  (forall relation, relation ∈ relations -> "" ∉ split relation) ->
  get_relations_hierarchy relations = Ok (grouped_hierarchy relations)
  /\ get_relations_hierarchy ["a__b__c"; "a__b__d"; "e"]
     = Ok [("a", ["b__c"; "b__d"]); ("e", [])].
Proof.
  intros Hsegments. split; [|reflexivity].
  by apply (relations_hierarchy_from_grouped relations []).
Qed.

Lemma relations_hierarchy_groups_witness :
  (forall relation,
      relation ∈ ["countries__states__cities"; "countries__states__villages";
                  "countries__phone_number"; "timezone"] ->
      "" ∉ split relation)
  /\ get_relations_hierarchy
       ["countries__states__cities"; "countries__states__villages";
        "countries__phone_number"; "timezone"]
     = Ok [("countries", ["states__cities"; "states__villages"; "phone_number"]);
           ("timezone", [])].
Proof.
  assert (forall relation,
      relation ∈ ["countries__states__cities"; "countries__states__villages";
                  "countries__phone_number"; "timezone"] ->
      "" ∉ split relation) as Hsegments.
  { intros relation Hin. apply (bool_decide_eq_false_1 ("" ∈ split relation)).
    repeat (apply elem_of_cons in Hin as [->|Hin]; [by vm_compute|]).
    by apply elem_of_nil in Hin. }
  split; [exact Hsegments|].
  destruct (relations_hierarchy_groups _ Hsegments) as [-> _].
  reflexivity.
Defined.

(** ** The translation query *)

(** C2 (the code departs from the claim). When the model of the context is
    not translatable and no relation is given, no clause is built and the
    last branch of [get_translations] asks the abstract class [Translatable]
    for its manager: the call raises [AttributeError] where the empty
    queryset was meant. *)
Theorem fetch_without_clauses_raises (app : App) (context : Context)
    (lang : option string) (tag filter_string : string) (model : Model)
    (context_value : ContextValue) :
  get_validated_language app lang = Ok tag ->
  fetch_context context = Ok (model, filter_string, context_value) ->
  is_Translatable app model = false ->
  get_translations app context [] lang = Err AttributeError.
Proof.
  intros Hlang Hcontext Hplain. unfold get_translations.
  rewrite Hlang. cbn. rewrite Hcontext. cbn. by rewrite Hplain.
Qed.

Lemma fetch_without_clauses_raises_witness :
  get_validated_language sample (Some "en") = Ok "en"
  /\ fetch_context (ModelInstance utc) = Ok (Timezone, "id", IdExact 1)
  /\ is_Translatable sample Timezone = false
  /\ get_translations sample (ModelInstance utc) [] (Some "en") = Err AttributeError.
Proof.
  do 3 (split; [reflexivity|]).
  apply (fetch_without_clauses_raises sample (ModelInstance utc) (Some "en")
           "en" "id" Timezone (IdExact 1)); reflexivity.
Defined.

(** C6 (the code departs from the claim). With a supported language, a
    context that is neither a queryset, a list nor an instance makes both
    the fetch and the overlay raise the invalid-context exception; an empty
    list, however, is a list, and both index its first element: they raise
    [IndexError], which is another exception. *)
Theorem empty_list_context_raises_IndexError (app : App) (table : list Translation)
    (relations : list string) (lang : option string) (tag : string)
    (translations_queryset : TranslationsArg) :
  get_validated_language app lang = Ok tag ->
  get_translations app (PyList []) relations lang = Err IndexError
  /\ translate app table (PyList []) relations lang translations_queryset
     = (PyList [], Err IndexError)
  /\ IndexError <> invalid_context
  /\ get_translations app Other relations lang = Err invalid_context
  /\ translate app table Other relations lang translations_queryset
     = (Other, Err invalid_context).
Proof.
  intros Hlang. unfold get_translations, translate. cbn [translate_rec].
  unfold mut_bind, lift. rewrite Hlang. by cbn.
Qed.

Lemma empty_list_context_raises_IndexError_witness :
  get_validated_language sample (Some "en") = Ok "en"
  /\ get_translations sample (PyList []) [] (Some "en") = Err IndexError
  /\ translate sample [] (PyList []) [] (Some "en") ArgNone
     = (PyList [], Err IndexError).
Proof.
  split; [reflexivity|].
  destruct (empty_list_context_raises_IndexError sample [] [] (Some "en") "en"
              ArgNone eq_refl) as (Hfetch & Hoverlay & _).
  by split.
Defined.

(** ** The side table *)

Lemma get_translations_own (app : App) (context : Context) (lang : option string)
    (tag filter_string name : string) (model : Model) (context_value : ContextValue) :
  get_validated_language app lang = Ok tag ->
  fetch_context context = Ok (model, filter_string, context_value) ->
  is_Translatable app model = true ->
  get_related_query_name app model "translations" = Ok name ->
  get_translations app context [] lang
  = Ok (Filtered tag [{| q_related_query_name := name;
                         q_filter_string := filter_string;
                         q_value := context_value |}]).
Proof.
  intros Hlang Hcontext Htr Hname. unfold get_translations.
  rewrite Hlang. cbn -[get_related_query_name]. rewrite Hcontext.
  cbn -[get_related_query_name]. rewrite Htr, Hname. done.
Qed.

(** The query of a stored instance selects the rows of that entity in the
    language. *)
Lemma selects_owned (app : App) (obj : Instance) (tag name : string) (row : Translation) :
  joins_stored_owner app (inst_model obj) (inst_id obj) ->
  get_related_query_name app (inst_model obj) "translations" = Ok name ->
  content_type row = content_type_id app (inst_model obj) ->
  object_id row = str (inst_id obj) ->
  language row = tag ->
  selects app
    (Filtered tag [{| q_related_query_name := name;
                      q_filter_string := "id";
                      q_value := IdExact (inst_id obj) |}]) row
  = true.
Proof.
  intros Hjoins Hname Hct Hid Hlang. cbn. unfold q_holds. cbn.
  rewrite (Hjoins name row Hname Hct Hid), orb_false_r.
  by rewrite bool_decide_eq_true_2.
Qed.

(** It selects no other row where the database matches an object id with
    the id by its text only. *)
Lemma selects_own (app : App) (obj : Instance) (tag name : string) (row : Translation) :
  joins_stored_owner app (inst_model obj) (inst_id obj) ->
  joins_by_text_only app (inst_model obj) (inst_id obj) ->
  get_related_query_name app (inst_model obj) "translations" = Ok name ->
  selects app
    (Filtered tag [{| q_related_query_name := name;
                      q_filter_string := "id";
                      q_value := IdExact (inst_id obj) |}]) row
  = bool_decide (content_type row = content_type_id app (inst_model obj)
                 /\ object_id row = str (inst_id obj) /\ language row = tag).
Proof.
  intros Hjoins Honly Hname. case_bool_decide as Hown.
  - destruct Hown as (Hct & Hid & Hlang). by apply selects_owned.
  - cbn. unfold q_holds. cbn. rewrite orb_false_r.
    destruct (joins app name row (inst_id obj)) eqn:Hjoin;
      [|by rewrite andb_false_r].
    destruct (Honly name row Hname Hjoin) as [Hct Hid].
    rewrite andb_true_r. apply bool_decide_eq_false_2. tauto.
Qed.

Lemma filter_unique (p : Translation -> bool) (table : list Translation) :
  unique_together table -> unique_together (List.filter p table).
Proof.
  unfold unique_together. induction table as [|row rest IH]; [done|].
  cbn. rewrite NoDup_cons. intros [Hfresh Hrest]. destruct (p row); [|by apply IH].
  cbn. rewrite NoDup_cons. split; [|by apply IH].
  intros Hin. apply Hfresh. apply list_elem_of_fmap in Hin as (other & Hkey & Hin).
  apply list_elem_of_fmap. exists other. split; [done|].
  apply list_elem_of_In in Hin. apply filter_In in Hin as [Hin _].
  by apply list_elem_of_In.
Qed.

Lemma bulk_create_unique (objs table table' : list Translation) (r : result unit) :
  unique_together table ->
  bulk_create objs table = (table', r) ->
  unique_together table'.
Proof.
  unfold bulk_create, unique_together. intros Htable.
  destruct (bool_decide _ && forallb _ _) eqn:Hcheck; intros [= <- <-]; [|done].
  apply andb_true_iff in Hcheck as [Hobjs Hfresh].
  apply bool_decide_eq_true_1 in Hobjs. rewrite forallb_forall in Hfresh.
  rewrite fmap_app, NoDup_app. split; [done|]. split; [|done].
  intros key Hkey Hin. apply list_elem_of_fmap in Hin as (obj & -> & Hin).
  apply list_elem_of_In, Hfresh, bool_decide_eq_true_1 in Hin. done.
Qed.

Lemma bulk_create_Ok (objs table table' : list Translation) :
  bulk_create objs table = (table', Ok tt) -> table' = table ++ objs.
Proof.
  unfold bulk_create. destruct (_ && _); by intros [= <-].
Qed.

(** What the transaction body leaves when it succeeds: the selected rows
    are gone and the staged rows are at the end. *)
Lemma renew_Ok (app : App) (context : Context) (tag : string)
    (translatable_fields : list Field) (table table' : list Translation) :
  renew app context tag translatable_fields table = (table', Ok tt) ->
  exists queryset,
    get_translations app context [] (Some tag) = Ok queryset
    /\ table'
       = List.filter (fun row => negb (selects app queryset row)) table
         ++ flat_map (add_translations app tag translatable_fields) (instances context).
Proof.
  unfold renew, mut_bind, lift, queryset_delete.
  destruct (get_translations app context [] (Some tag)) as [queryset|]; [|done].
  intros Hrun. exists queryset. split; [done|].
  destruct (flat_map _ _) as [|obj objs] eqn:Hstaged.
  - cbn in Hrun. injection Hrun as <-. by rewrite app_nil_r.
  - cbn [length Nat.ltb Nat.leb] in Hrun. by apply bulk_create_Ok in Hrun.
Qed.

Lemma renew_unique (app : App) (context : Context) (tag : string)
    (translatable_fields : list Field) (table table' : list Translation)
    (r : result unit) :
  unique_together table ->
  renew app context tag translatable_fields table = (table', r) ->
  unique_together table'.
Proof.
  unfold renew, mut_bind, lift, queryset_delete. intros Htable.
  destruct (get_translations app context [] (Some tag)) as [queryset|];
    [|by intros [= <- <-]].
  destruct (0 <? length _)%nat.
  - apply bulk_create_unique. by apply filter_unique.
  - intros [= <- <-]. by apply filter_unique.
Qed.

(** The shape of a run of [update_translations]: nothing happens, or the
    transaction body runs inside [atomic]. *)
Lemma update_translations_cases (app : App) (context : Context)
    (lang : option string) (table : list Translation) :
  (exists r, update_translations app context lang table = (table, r))
  \/ (exists tag model is_plural translatable_fields,
        get_validated_language app lang = Ok tag
        /\ persist_context context = Ok (Some (model, is_plural))
        /\ is_Translatable app model = true
        /\ get_translatable_fields app model = Ok translatable_fields
        /\ update_translations app context lang table
           = atomic (renew app context tag translatable_fields) table).
Proof.
  unfold update_translations, mut_bind, lift, mut_ret.
  destruct (get_validated_language app lang) as [tag|] eqn:Hlang;
    [|by left; eexists].
  destruct (persist_context context) as [[[model is_plural]|]|] eqn:Hcontext;
    [|by left; eexists..].
  destruct (is_Translatable app model) eqn:Htr; [|by left; eexists].
  destruct (get_translatable_fields app model) as [translatable_fields|] eqn:Hfields;
    [|by left; eexists].
  right. exists tag, model, is_plural, translatable_fields.
  repeat split; try done.
  unfold try_reraise.
  by destruct (atomic (renew app context tag translatable_fields) table) as [? []].
Qed.

(** C3. [update_translations] is atomic.  Whenever it raises, the table is
    the one it was called on; an exception raised by the transaction body,
    at any point and whatever the body did to the table before, is the
    exception the call raises; and when the call returns, either nothing was
    touched or the deletion and the insertion were both carried out. *)
Theorem persist_is_atomic (app : App) (context : Context) (lang : option string)
    (table : list Translation) :
  (forall table' e,
      update_translations app context lang table = (table', Err e) ->
      table' = table)
  /\ (forall tag model is_plural translatable_fields partial e,
         get_validated_language app lang = Ok tag ->
         persist_context context = Ok (Some (model, is_plural)) ->
         is_Translatable app model = true ->
         get_translatable_fields app model = Ok translatable_fields ->
         renew app context tag translatable_fields table = (partial, Err e) ->
         update_translations app context lang table = (table, Err e))
  /\ (forall table',
         update_translations app context lang table = (table', Ok tt) ->
         table' = table
         \/ exists tag translatable_fields queryset,
              get_translations app context [] (Some tag) = Ok queryset
              /\ table'
                 = List.filter (fun row => negb (selects app queryset row)) table
                   ++ flat_map (add_translations app tag translatable_fields)
                        (instances context)).
Proof.
  split; [|split].
  - intros table' e Hrun.
    destruct (update_translations_cases app context lang table)
      as [[r Hsame]|(tag & model & is_plural & fields & _ & _ & _ & _ & Hbody)].
    + congruence.
    + rewrite Hbody in Hrun. unfold atomic in Hrun.
      destruct (renew app context tag fields table) as [partial [[]|e']];
        congruence.
  - intros tag model is_plural fields partial e Hlang Hcontext Htr Hfields Hbody.
    unfold update_translations, mut_bind, lift.
    rewrite Hlang, Hcontext, Htr, Hfields.
    unfold try_reraise, atomic. by rewrite Hbody.
  - intros table' Hrun.
    destruct (update_translations_cases app context lang table)
      as [[r Hsame]|(tag & model & is_plural & fields & _ & _ & _ & _ & Hbody)].
    + left. congruence.
    + right. rewrite Hbody in Hrun. unfold atomic in Hrun.
      destruct (renew app context tag fields table) as [partial [[]|e']] eqn:Hrenew;
        [|done].
      injection Hrun as <-. apply renew_Ok in Hrenew as (queryset & Hq & ->).
      by exists tag, fields, queryset.
Qed.

(** A badge whose translatable fields name [name] twice: the body deletes
    the old row, the insertion violates [unique_together], and the call
    leaves the old row in place. *)
Lemma persist_is_atomic_witness :
  let table := [row 12 "1" "name" "de" "Alt"; row 7 "2" "name" "de" "Asien"] in
  let fields := [column "name" CharField; column "name" CharField] in
  renew sample (ModelInstance gold) "de" fields table
  = ([row 7 "2" "name" "de" "Asien"], Err IntegrityError)
  /\ update_translations sample (ModelInstance gold) (Some "de") table
     = (table, Err IntegrityError).
Proof.
  intros table fields. split; [reflexivity|].
  destruct (persist_is_atomic sample (ModelInstance gold) (Some "de") table)
    as (_ & Hraise & _).
  apply (Hraise "de" Badge false fields [row 7 "2" "name" "de" "Asien"]);
    reflexivity.
Defined.

Lemma update_translations_unique (app : App) (context : Context)
    (lang : option string) (table : list Translation) :
  unique_together table ->
  unique_together (update_translations app context lang table).1.
Proof.
  intros Htable.
  destruct (update_translations_cases app context lang table)
    as [[r ->]|(tag & model & is_plural & fields & _ & _ & _ & _ & ->)]; [done|].
  unfold atomic.
  destruct (renew app context tag fields table) as [table' [[]|e]] eqn:Hrenew;
    [|done].
  by eapply renew_unique.
Qed.

Lemma filter_none {A} (p : A -> bool) (l : list A) :
  List.filter p (List.filter (fun x => negb (p x)) l) = [].
Proof.
  induction l as [|x l IH]; [done|]. cbn.
  destruct (p x) eqn:Hp; cbn; [done|]. by rewrite Hp.
Qed.

Lemma filter_all {A} (p : A -> bool) (l : list A) :
  (forall x, x ∈ l -> p x = true) -> List.filter p l = l.
Proof.
  induction l as [|x l IH]; [done|]. intros Hall. cbn.
  rewrite (Hall x) by apply list_elem_of_here. f_equal.
  apply IH. intros y Hy. by apply Hall, list_elem_of_further.
Qed.

Lemma add_translations_row (app : App) (tag : string) (translatable_fields : list Field)
    (obj : Instance) (new : Translation) :
  new ∈ add_translations app tag translatable_fields obj ->
  exists f,
    f ∈ translatable_fields
    /\ truthy (getattr obj (f_name f)) = true
    /\ new = new_translation app obj tag (f_name f) (getattr obj (f_name f)).
Proof.
  unfold add_translations. rewrite list_elem_of_omap.
  intros (f & Hf & Hnew). exists f. split; [done|].
  destruct (truthy (getattr obj (f_name f))); [|done].
  by injection Hnew as <-.
Qed.

Lemma filter_excluded {A} (p q : A -> bool) (l : list A) :
  (forall x, p x = true -> q x = true) ->
  List.filter p (List.filter (fun x => negb (q x)) l) = [].
Proof.
  intros Hpq. induction l as [|x l IH]; [done|]. cbn.
  destruct (q x) eqn:Hq; cbn; [done|].
  destruct (p x) eqn:Hp; [|done]. apply Hpq in Hp. congruence.
Qed.

(** After a successful run on a stored instance, the table is the rows the
    query did not select followed by the staged rows, and the rows of that
    entity in the language, which are also the rows its query fetches, are
    exactly the staged rows. *)
Lemma update_translations_supersedes (app : App) (obj : Instance)
    (lang : option string) (tag : string) (translatable_fields : list Field)
    (table table' : list Translation) :
  joins_stored_owner app (inst_model obj) (inst_id obj) ->
  is_Translatable app (inst_model obj) = true ->
  get_validated_language app lang = Ok tag ->
  get_translatable_fields app (inst_model obj) = Ok translatable_fields ->
  update_translations app (ModelInstance obj) lang table = (table', Ok tt) ->
  exists name,
    let queryset :=
      Filtered tag [{| q_related_query_name := name;
                       q_filter_string := "id";
                       q_value := IdExact (inst_id obj) |}] in
    get_related_query_name app (inst_model obj) "translations" = Ok name
    /\ table'
       = List.filter (fun row => negb (selects app queryset row)) table
         ++ add_translations app tag translatable_fields obj
    /\ rows_of app table' (inst_model obj) (inst_id obj) tag
       = add_translations app tag translatable_fields obj
    /\ fetch app queryset table' = add_translations app tag translatable_fields obj.
Proof.
  intros Hjoins Htr Hlang Hfields Hrun.
  unfold update_translations, mut_bind, lift in Hrun.
  rewrite Hlang in Hrun. cbn [persist_context] in Hrun.
  rewrite Htr, Hfields in Hrun. unfold try_reraise, atomic in Hrun.
  destruct (renew app (ModelInstance obj) tag translatable_fields table)
    as [after [[]|e]] eqn:Hrenew; [|done].
  injection Hrun as <-. apply renew_Ok in Hrenew as (queryset & Hquery & ->).
  destruct (get_related_query_name app (inst_model obj) "translations")
    as [name|e] eqn:Hname.
  2: { unfold get_translations in Hquery.
       rewrite (get_validated_language_again _ _ _ Hlang) in Hquery.
       cbn -[get_related_query_name] in Hquery. by rewrite Htr, Hname in Hquery. }
  rewrite (get_translations_own app (ModelInstance obj) (Some tag) tag "id" name
             (inst_model obj) (IdExact (inst_id obj))) in Hquery;
    [|by eapply get_validated_language_again|done..].
  injection Hquery as <-. exists name. cbv zeta. split; [done|].
  cbn [instances flat_map]. rewrite app_nil_r. split; [done|].
  assert (forall new,
             new ∈ add_translations app tag translatable_fields obj ->
             content_type new = content_type_id app (inst_model obj)
             /\ object_id new = str (inst_id obj) /\ language new = tag) as Hstaged.
  { intros new Hnew. by apply add_translations_row in Hnew as (f & _ & _ & ->). }
  split.
  - unfold rows_of. rewrite List.filter_app, filter_excluded, app_nil_l.
    + apply filter_all. intros new Hnew. by apply bool_decide_eq_true_2, Hstaged.
    + intros r Hr. apply bool_decide_eq_true_1 in Hr as (Hct & Hid & Hl).
      by apply selects_owned.
  - unfold fetch. rewrite List.filter_app, filter_none, app_nil_l.
    apply filter_all. intros new Hnew.
    destruct (Hstaged new Hnew) as (Hct & Hid & Hl). by apply selects_owned.
Qed.


(** The sample store holds the continent and the badge with id 1, and
    matches an object id with an id by its text. *)
Lemma sample_joins_stored_owner (cls : Model) :
  cls ∈ [Continent; Badge] -> joins_stored_owner sample cls 1.
Proof.
  intros Hin name row Hname Hct Hid.
  repeat (apply elem_of_cons in Hin as [->|Hin]); [..|by apply elem_of_nil in Hin];
    vm_compute in Hname; injection Hname as <-;
    change (content_type_id sample ?cls) with (sample_content_type_id cls) in Hct;
    unfold joins, sample, sample_joins; cbn [String.eqb Ascii.eqb Bool.eqb];
    rewrite Hid, String.eqb_refl, andb_true_r;
    rewrite (bool_decide_eq_true_2 _ Hct); by vm_compute.
Qed.

Lemma sample_joins_by_text_only (cls : Model) :
  cls ∈ [Continent; Badge] -> joins_by_text_only sample cls 1.
Proof.
  intros Hin name row Hname Hjoin.
  repeat (apply elem_of_cons in Hin as [->|Hin]); [..|by apply elem_of_nil in Hin];
    vm_compute in Hname; injection Hname as <-;
    unfold joins, sample, sample_joins in Hjoin;
    cbn [String.eqb Ascii.eqb Bool.eqb] in Hjoin;
    apply andb_true_iff in Hjoin as [Hjoin Hid];
    apply andb_true_iff in Hjoin as [Hct _];
    apply bool_decide_eq_true_1 in Hct; apply String.eqb_eq in Hid; by split.
Qed.



(** ** The overlay *)

(** The rows a dict of translations holds for an entity. *)
Lemma group_translation_lookup (d : gmap Z (gmap string (list Translation)))
    (obj : Translation) (ct : Z) (id : string) :
  group_translation d obj !! ct ≫= (.!! id)
  = if bool_decide (content_type obj = ct /\ object_id obj = id)
    then Some (default [] (d !! ct ≫= (.!! id)) ++ [obj])
    else d !! ct ≫= (.!! id).
Proof.
  unfold group_translation.
  destruct (d !! content_type obj) as [by_id|] eqn:Hd.
  - rewrite (bool_decide_eq_true_2 (is_Some (Some by_id))) by eauto.
    cbn zeta. rewrite Hd. cbn [default from_option Datatypes.id].
    destruct (by_id !! object_id obj) as [rows|] eqn:Hrows.
    + rewrite (bool_decide_eq_true_2 (is_Some (Some rows))) by eauto.
      rewrite Hrows. cbn [default from_option Datatypes.id].
      destruct (decide (content_type obj = ct)) as [<-|Hct];
        [destruct (decide (object_id obj = id)) as [<-|Hid]|].
      * rewrite bool_decide_eq_true_2 by done. by simplify_map_eq.
      * rewrite bool_decide_eq_false_2 by tauto. by simplify_map_eq.
      * rewrite bool_decide_eq_false_2 by tauto. by simplify_map_eq.
    + rewrite (bool_decide_eq_false_2 (is_Some None)) by (by intros [? ?]).
      rewrite lookup_insert_eq. cbn [default from_option Datatypes.id app].
      destruct (decide (content_type obj = ct)) as [<-|Hct];
        [destruct (decide (object_id obj = id)) as [<-|Hid]|].
      * rewrite bool_decide_eq_true_2 by done. by simplify_map_eq.
      * rewrite bool_decide_eq_false_2 by tauto. by simplify_map_eq.
      * rewrite bool_decide_eq_false_2 by tauto. by simplify_map_eq.
  - rewrite (bool_decide_eq_false_2 (is_Some None)) by (by intros [? ?]).
    cbn zeta. rewrite lookup_insert_eq. cbn [default from_option Datatypes.id]. rewrite lookup_empty.
    rewrite (bool_decide_eq_false_2 (is_Some None)) by (by intros [? ?]).
    rewrite lookup_insert_eq. cbn [default from_option Datatypes.id app].
    destruct (decide (content_type obj = ct)) as [<-|Hct];
      [destruct (decide (object_id obj = id)) as [<-|Hid]|].
    + rewrite bool_decide_eq_true_2 by done. by simplify_map_eq.
    + rewrite bool_decide_eq_false_2 by tauto. by simplify_map_eq.
    + rewrite bool_decide_eq_false_2 by tauto. by simplify_map_eq.
Qed.

Lemma group_translations_from (rows : list Translation) :
  forall (d : gmap Z (gmap string (list Translation))) (ct : Z) (id : string),
    foldl group_translation d rows !! ct ≫= (.!! id)
    = match List.filter
              (fun obj => bool_decide (content_type obj = ct /\ object_id obj = id))
              rows with
      | [] => d !! ct ≫= (.!! id)
      | found => Some (default [] (d !! ct ≫= (.!! id)) ++ found)
      end.
Proof.
  induction rows as [|obj rest IH]; intros d ct id; [done|].
  cbn [foldl List.filter]. rewrite IH, group_translation_lookup.
  destruct (bool_decide (content_type obj = ct /\ object_id obj = id)).
  - cbn. destruct (List.filter _ rest); [done|]. by rewrite <- app_assoc.
  - done.
Qed.

Lemma group_translations_lookup (rows : list Translation) (ct : Z) (id : string) :
  group_translations rows !! ct ≫= (.!! id)
  = match List.filter
            (fun obj => bool_decide (content_type obj = ct /\ object_id obj = id))
            rows with
    | [] => None
    | found => Some found
    end.
Proof.
  unfold group_translations. rewrite group_translations_from.
  rewrite lookup_empty. done.
Qed.

Lemma apply_translations_Err (app : App) (model : Model)
    (translatable_fields : list Field) (rows : list Translation) :
  forall obj obj' e,
    apply_translations app model translatable_fields rows obj = (obj', Err e) ->
    e = FieldDoesNotExist.
Proof.
  induction rows as [|row rest IH]; intros obj obj' e; [done|].
  cbn [apply_translations].
  destruct (get_field app model (field row)) as [f|e'] eqn:Hf.
  - apply IH.
  - intros [= _ <-]. by eapply get_field_Err.
Qed.

Lemma apply_translations_unknown (app : App) (model : Model)
    (translatable_fields : list Field) (rows : list Translation) (bad : Translation) :
  bad ∈ rows ->
  get_field app model (field bad) = Err FieldDoesNotExist ->
  forall obj, exists obj',
    apply_translations app model translatable_fields rows obj
    = (obj', Err FieldDoesNotExist).
Proof.
  intros Hin Hbad. induction rows as [|row rest IH]; intros obj.
  - by apply elem_of_nil in Hin.
  - cbn [apply_translations].
    destruct (get_field app model (field row)) as [f|e] eqn:Hf.
    + apply elem_of_cons in Hin as [->|Hin]; [congruence|]. by apply IH.
    + apply get_field_Err in Hf as ->. by eexists.
Qed.

Lemma apply_translations_Ok (app : App) (model : Model)
    (translatable_fields : list Field) (rows : list Translation) :
  (forall row, row ∈ rows -> exists f, get_field app model (field row) = Ok f) ->
  forall obj, exists obj',
    apply_translations app model translatable_fields rows obj = (obj', Ok tt).
Proof.
  induction rows as [|row rest IH]; intros Hall obj; [by eexists|].
  cbn [apply_translations].
  destruct (Hall row) as [f ->]; [apply list_elem_of_here|].
  apply IH. intros other Hother. by apply Hall, list_elem_of_further.
Qed.

(** One row of the loop, on the attributes. *)
Lemma apply_translation_attrs (obj : Instance) (cond : bool) (name value : string)
    (other : string) :
  inst_attrs (if cond then setattr obj name (VStr value) else obj) !! other
  = if cond && bool_decide (name = other) then Some (VStr value)
    else inst_attrs obj !! other.
Proof.
  destruct cond; [|done]. cbn. case_bool_decide as Hname.
  - subst. by rewrite lookup_insert_eq.
  - by rewrite lookup_insert_ne.
Qed.

Lemma apply_translations_same (app : App) (model : Model)
    (translatable_fields : list Field) (rows : list Translation) :
  forall obj obj' r,
    apply_translations app model translatable_fields rows obj = (obj', r) ->
    inst_model obj' = inst_model obj /\ inst_id obj' = inst_id obj.
Proof.
  induction rows as [|row rest IH]; intros obj obj' r.
  - by intros [= <- _].
  - cbn [apply_translations].
    destruct (get_field app model (field row)) as [f|e]; [|by intros [= <- _]].
    intros Hrest. apply IH in Hrest as [-> ->]. by destruct (_ && _).
Qed.

(** Selectivity of the loop: an attribute keeps its value, or it was named
    by a row that passed all three tests and holds the text of such a row. *)
Lemma apply_translations_frame (app : App) (model : Model)
    (translatable_fields : list Field) (rows : list Translation) (name : string) :
  forall obj obj' r,
    apply_translations app model translatable_fields rows obj = (obj', r) ->
    inst_attrs obj' !! name = inst_attrs obj !! name
    \/ exists f row,
         row ∈ rows /\ field row = name
         /\ get_field app model name = Ok f /\ f ∈ translatable_fields
         /\ hasattr obj name = true
         /\ nonempty (text row) = true
         /\ inst_attrs obj' !! name = Some (VStr (text row)).
Proof.
  induction rows as [|row rest IH]; intros obj obj' r.
  - intros [= <- _]. by left.
  - cbn [apply_translations].
    destruct (get_field app model (field row)) as [f|e] eqn:Hf;
      [|intros [= <- _]; by left].
    set (cond := bool_decide (f ∈ translatable_fields) && hasattr obj (field row)
                 && nonempty (text row)).
    intros Hrest.
    pose proof (apply_translation_attrs obj cond (field row) (text row) name) as Hstep.
    assert (cond && bool_decide (field row = name) = true ->
            field row = name /\ f ∈ translatable_fields
            /\ hasattr obj name = true /\ nonempty (text row) = true) as Hcond.
    { intros Hc. apply andb_true_iff in Hc as [Hc Hname].
      apply bool_decide_eq_true_1 in Hname. subst name. unfold cond in Hc.
      apply andb_true_iff in Hc as [Hc Htext].
      apply andb_true_iff in Hc as [Hin Hhas].
      by apply bool_decide_eq_true_1 in Hin. }
    destruct (IH _ _ _ Hrest) as [Hsame|(f' & row' & Hin & Hfield & Hf' & Htf
                                         & Hhas & Htext & Hvalue)].
    + rewrite Hsame, Hstep.
      destruct (cond && bool_decide (field row = name)) eqn:Hc; [|by left].
      destruct (Hcond eq_refl) as (Hname & Htf & Hhas & Htext).
      right. exists f, row. rewrite <- Hname at 2.
      by repeat split; [apply list_elem_of_here|..].
    + right. exists f', row'. repeat split; try done; [by apply list_elem_of_further|].
      unfold hasattr in Hhas. apply bool_decide_eq_true_1 in Hhas.
      rewrite Hstep in Hhas.
      destruct (cond && bool_decide (field row = name)) eqn:Hc.
      * by destruct (Hcond eq_refl) as (_ & _ & ? & _).
      * by apply bool_decide_eq_true_2.
Qed.

(** When every row naming an attribute carries the same text and passes the
    tests, the attribute ends up holding that text. *)
Lemma apply_translations_sets (app : App) (model : Model)
    (translatable_fields : list Field) (rows : list Translation)
    (name value : string) (f : Field) :
  get_field app model name = Ok f ->
  f ∈ translatable_fields ->
  nonempty value = true ->
  (forall row, row ∈ rows -> field row = name -> text row = value) ->
  forall obj obj',
    apply_translations app model translatable_fields rows obj = (obj', Ok tt) ->
    hasattr obj name = true ->
    (exists row, row ∈ rows /\ field row = name)
    \/ inst_attrs obj !! name = Some (VStr value) ->
    inst_attrs obj' !! name = Some (VStr value).
Proof.
  intros Hf Htf Hvalue. induction rows as [|row rest IH]; intros Htexts obj obj'.
  - intros [= <-] _ [(row & Hin & _)|Hset]; [by inversion Hin|done].
  - cbn [apply_translations].
    destruct (get_field app model (field row)) as [f'|e] eqn:Hf'; [|done].
    set (cond := bool_decide (f' ∈ translatable_fields) && hasattr obj (field row)
                 && nonempty (text row)).
    intros Hrest Hhas Hsome.
    pose proof (apply_translation_attrs obj cond (field row) (text row) name) as Hstep.
    apply (IH (fun other Hother => Htexts other (list_elem_of_further _ _ _ Hother))
              _ _ Hrest).
    + unfold hasattr in *. apply bool_decide_eq_true_1 in Hhas.
      apply bool_decide_eq_true_2. rewrite Hstep.
      destruct (cond && bool_decide (field row = name)); [by eexists|done].
    + destruct (decide (field row = name)) as [Hname|Hname].
      * right. rewrite Hstep.
        assert (cond = true) as ->.
        { unfold cond. rewrite Hname in Hf' |- *.
          assert (f' = f) as -> by congruence.
          rewrite (Htexts row (list_elem_of_here _ _) Hname), Hvalue, Hhas.
          by rewrite bool_decide_eq_true_2. }
        rewrite bool_decide_eq_true_2 by done. cbn.
        by rewrite (Htexts row (list_elem_of_here _ _) Hname).
      * destruct Hsome as [(other & Hin & Hother)|Hset].
        -- left. exists other. split; [|done].
           apply elem_of_cons in Hin as [->|Hin]; [done|done].
        -- right. rewrite Hstep, (bool_decide_eq_false_2 (field row = name)) by done.
           by rewrite andb_false_r.
Qed.

(** The first half of [translate]: once the language, the context and the
    translations are settled, the instances of a translatable context are
    overlaid, and the relations are walked only if that raised nothing. *)
Lemma translate_rec_overlay (app : App) (fuel : nat) (table : list Translation)
    (relations : list string) (lang : option string) (tag : string)
    (given used : TranslationsArg) (context : Context) (model : Model)
    (is_plural : bool) (translatable_fields : list Field) :
  get_validated_language app lang = Ok tag ->
  overlay_context context = Ok (model, is_plural) ->
  given_or_fetched app context relations tag given = Ok used ->
  is_Translatable app model = true ->
  get_translatable_fields app model = Ok translatable_fields ->
  translate_rec app (S fuel) table relations lang given context
  = match each_instance
            (translate_obj app model translatable_fields
               (translations_dict app table used)) context with
    | (overlaid, Ok _) =>
        mut_bind (lift (get_relations_hierarchy relations))
          (fun relations_dict =>
             if (0 <? length relations_dict)%nat then
               each_instance
                 (translate_rel
                    (fun relation_descendants =>
                       translate_rec app fuel table relation_descendants (Some tag)
                         (ArgDict (translations_dict app table used)))
                    relations_dict)
             else mut_ret tt) overlaid
    | (overlaid, Err e) => (overlaid, Err e)
    end.
Proof.
  intros Hlang Hcontext Hused Htr Hfields. cbn [translate_rec].
  unfold mut_bind at 1. unfold lift at 1. rewrite Hlang.
  unfold mut_bind at 1. unfold lift at 1. rewrite Hcontext.
  unfold mut_bind at 1. unfold lift at 1. rewrite Hused.
  unfold mut_bind at 1. rewrite Htr.
  unfold mut_bind at 1. unfold lift at 1. rewrite Hfields.
  by destruct (each_instance _ context) as [overlaid [[]|e]].
Qed.

Lemma for_each_raises {A} (body : Mut A unit) (xs : list A) (x : A) (e : exn) :
  x ∈ xs ->
  (exists x', body x = (x', Err e)) ->
  (forall y y' e', body y = (y', Err e') -> e' = e) ->
  exists xs', for_each body xs = (xs', Err e).
Proof.
  intros Hin [x' Hx] Huniform. induction xs as [|y rest IH].
  - by apply elem_of_nil in Hin.
  - cbn [for_each]. destruct (body y) as [y' [[]|e']] eqn:Hy.
    + apply elem_of_cons in Hin as [->|Hin]; [congruence|].
      destruct (IH Hin) as [rest' ->]. by eexists.
    + apply Huniform in Hy as ->. by eexists.
Qed.

Lemma each_instance_raises (body : Mut Instance unit) (context : Context)
    (obj : Instance) (e : exn) :
  obj ∈ instances context ->
  (exists obj', body obj = (obj', Err e)) ->
  (forall y y' e', body y = (y', Err e') -> e' = e) ->
  exists context', each_instance body context = (context', Err e).
Proof.
  intros Hin Hobj Huniform. destruct context as [model rows|items|only|]; cbn in *.
  - destruct (for_each_raises body rows obj e Hin Hobj Huniform) as [rows' ->].
    by eexists.
  - destruct (for_each_raises body items obj e Hin Hobj Huniform) as [items' ->].
    by eexists.
  - apply list_elem_of_singleton in Hin as ->. destruct Hobj as [obj' ->].
    by eexists.
  - by apply elem_of_nil in Hin.
Qed.

(** C9. When the translations handed to [translate] list, for an instance
    of the context, a row whose [field] names no field of the model, the
    overlay raises [FieldDoesNotExist]; a row naming a field of the model
    that is not translatable is passed over. *)
Theorem overlay_unknown_field_raises (app : App) (table : list Translation)
    (context : Context) (relations : list string) (lang : option string)
    (tag : string) (model : Model) (is_plural : bool)
    (translatable_fields : list Field) (given : TranslationsArg)
    (obj : Instance) (rows : list Translation) (bad : Translation) :
  get_validated_language app lang = Ok tag ->
  overlay_context context = Ok (model, is_plural) ->
  is_Translatable app model = true ->
  get_translatable_fields app model = Ok translatable_fields ->
  given <> ArgNone ->
  obj ∈ instances context ->
  translations_dict app table given !! content_type_id app model
    ≫= (.!! str (inst_id obj)) = Some rows ->
  bad ∈ rows ->
  get_field app model (field bad) = Err FieldDoesNotExist ->
  (exists context',
      translate app table context relations lang given
      = (context', Err FieldDoesNotExist))
  /\ (forall skipped f rest other,
         get_field app model (field skipped) = Ok f ->
         f ∉ translatable_fields ->
         apply_translations app model translatable_fields (skipped :: rest) other
         = apply_translations app model translatable_fields rest other).
Proof.
  intros Hlang Hcontext Htr Hfields Hgiven Hobj Hrows Hbad Hunknown. split.
  - unfold translate.
    rewrite (translate_rec_overlay app _ table relations lang tag given given
               context model is_plural translatable_fields)
      by (try done; by destruct given).
    destruct (each_instance_raises
                (translate_obj app model translatable_fields
                   (translations_dict app table given))
                context obj FieldDoesNotExist Hobj) as [context' ->].
    + unfold translate_obj. rewrite Hrows.
      by apply apply_translations_unknown with bad.
    + intros y y' e. unfold translate_obj.
      destruct (translations_dict app table given !! content_type_id app model
                  ≫= (.!! str (inst_id y)));
        [apply apply_translations_Err|done].
    + by eexists.
  - intros skipped f rest other Hf Hnot. cbn [apply_translations]. rewrite Hf.
    by rewrite bool_decide_eq_false_2.
Qed.

Lemma overlay_unknown_field_raises_witness :
  let given :=
    ArgDict {[ 7%Z := {[ "1" := [row 7 "1" "name" "de" "Europa";
                                  row 7 "1" "contact" "de" "eu@beispiel.de";
                                  row 7 "1" "motto" "de" "In Vielfalt geeint"] ]} ]} in
  get_field sample Continent "motto" = Err FieldDoesNotExist
  /\ get_field sample Continent "contact" = Ok (column "contact" EmailField)
  /\ exists context',
       translate sample [] (ModelInstance europe) [] (Some "de") given
       = (context', Err FieldDoesNotExist).
Proof.
  intros given. split; [reflexivity|]. split; [reflexivity|].
  apply (overlay_unknown_field_raises sample [] (ModelInstance europe) [] (Some "de")
           "de" Continent false
           [column "code" CharField; column "name" CharField;
            column "denonym" TextField]
           given europe
           [row 7 "1" "name" "de" "Europa";
            row 7 "1" "contact" "de" "eu@beispiel.de";
            row 7 "1" "motto" "de" "In Vielfalt geeint"]
           (row 7 "1" "motto" "de" "In Vielfalt geeint")).
  - reflexivity.
  - reflexivity.
  - reflexivity.
  - reflexivity.
  - discriminate.
  - apply list_elem_of_here.
  - by vm_compute.
  - do 2 apply list_elem_of_further. apply list_elem_of_here.
  - reflexivity.
Defined.

Lemma for_each_pointwise {A} (P : A -> A -> Prop) (body : Mut A unit) (xs : list A) :
  (forall x, P x x) ->
  (forall x x' r, body x = (x', r) -> P x x') ->
  forall xs' r,
    for_each body xs = (xs', r) ->
    forall i x, xs !! i = Some x -> exists x', xs' !! i = Some x' /\ P x x'.
Proof.
  intros Hrefl Hbody. induction xs as [|y rest IH]; intros xs' r Hrun i x Hx.
  - by rewrite lookup_nil in Hx.
  - cbn [for_each] in Hrun. destruct (body y) as [y' [[]|e]] eqn:Hy.
    + destruct (for_each body rest) as [rest' r'] eqn:Hrest.
      injection Hrun as <- <-. destruct i as [|i]; cbn in *.
      * injection Hx as <-. exists y'. split; [done|]. by eapply Hbody.
      * by eapply IH.
    + injection Hrun as <- <-. destruct i as [|i]; cbn in *.
      * injection Hx as <-. exists y'. split; [done|]. by eapply Hbody.
      * exists x. by split.
Qed.

Lemma each_instance_elementwise (P : Instance -> Instance -> Prop)
    (body : Mut Instance unit) (c c' : Context) (r : result unit) :
  (forall x, P x x) ->
  (forall x x' r', body x = (x', r') -> P x x') ->
  each_instance body c = (c', r) ->
  elementwise P c c'.
Proof.
  intros Hrefl Hbody Hrun i obj Hobj.
  destruct c as [model rows|items|only|]; cbn in *.
  - destruct (for_each body rows) as [rows' r'] eqn:Hrows. injection Hrun as <- <-.
    by eapply (for_each_pointwise P body rows).
  - destruct (for_each body items) as [items' r'] eqn:Hitems. injection Hrun as <- <-.
    by eapply (for_each_pointwise P body items).
  - destruct (body only) as [only' r'] eqn:Honly. injection Hrun as <- <-.
    destruct i as [|i]; [|done]. injection Hobj as <-. exists only'.
    split; [done|]. by eapply Hbody.
  - by rewrite lookup_nil in Hobj.
Qed.

Lemma elementwise_refl (P : Instance -> Instance -> Prop) (c : Context) :
  (forall x, P x x) -> elementwise P c c.
Proof. intros Hrefl i obj Hobj. exists obj. by split. Qed.

Lemma elementwise_trans (P Q R : Instance -> Instance -> Prop) (c c' c'' : Context) :
  (forall x y z, P x y -> Q y z -> R x z) ->
  elementwise P c c' -> elementwise Q c' c'' -> elementwise R c c''.
Proof.
  intros Hcompose Hfirst Hsecond i obj Hobj.
  destruct (Hfirst i obj Hobj) as (obj' & Hobj' & HP).
  destruct (Hsecond i obj' Hobj') as (obj'' & Hobj'' & HQ).
  exists obj''. split; [done|]. by eapply Hcompose.
Qed.

(** [translate_obj] on one instance. *)
Lemma translate_obj_frame (app : App) (model : Model)
    (translatable_fields : list Field)
    (translations : gmap Z (gmap string (list Translation)))
    (obj obj' : Instance) (r : result unit) :
  translate_obj app model translatable_fields translations obj = (obj', r) ->
  inst_model obj' = inst_model obj /\ inst_id obj' = inst_id obj
  /\ forall name,
       inst_attrs obj' !! name = inst_attrs obj !! name
       \/ exists f row,
            get_field app model name = Ok f /\ f ∈ translatable_fields
            /\ hasattr obj name = true
            /\ listed_for app translations model obj row
            /\ field row = name /\ nonempty (text row) = true
            /\ inst_attrs obj' !! name = Some (VStr (text row)).
Proof.
  unfold translate_obj.
  destruct (translations !! content_type_id app model ≫= (.!! str (inst_id obj)))
    as [rows|] eqn:Hrows.
  - intros Hrun.
    destruct (apply_translations_same _ _ _ _ _ _ _ Hrun) as [Hmodel Hid].
    split; [done|]. split; [done|]. intros name.
    destruct (apply_translations_frame _ _ _ _ name _ _ _ Hrun)
      as [Hsame|(f & row & Hin & Hfield & Hf & Htf & Hhas & Htext & Hvalue)];
      [by left|].
    right. exists f, row. repeat split; try done. by exists rows.
  - intros [= <- _]. split; [done|]. split; [done|]. by left.
Qed.

(** [translate_rel] on one instance: only attributes that hold related
    objects are touched, and they still hold related objects. *)
Lemma translate_rel_frame (nested : list string -> Mut Context unit)
    (relations_dict : list (string * list string)) :
  forall obj obj' r,
    translate_rel nested relations_dict obj = (obj', r) ->
    inst_model obj' = inst_model obj /\ inst_id obj' = inst_id obj
    /\ forall name,
         inst_attrs obj' !! name = inst_attrs obj !! name
         \/ (holds_related (inst_attrs obj !! name)
             /\ holds_related (inst_attrs obj' !! name)).
Proof.
  induction relations_dict as [|[relation_key relation_descendants] rest IH];
    intros obj obj' r.
  - intros [= <- _]. split; [done|]. split; [done|]. by left.
  - cbn [translate_rel]. unfold getattr.
    destruct (inst_attrs obj !! relation_key) as [relation_value|] eqn:Hvalue;
      cbn [default from_option Datatypes.id]; [|apply IH].
    destruct relation_value as [|s|related|model prefetched rows];
      [apply IH|..];
      destruct (nested relation_descendants _) as [translated [[]|e]].
    + apply IH.
    + intros [= <- _]. split; [done|]. split; [done|]. by left.
    + intros Hrest. apply IH in Hrest as (-> & -> & Hrest).
      split; [done|]. split; [done|]. intros name. cbn in Hrest.
      destruct (decide (relation_key = name)) as [<-|Hname].
      * right. rewrite Hvalue. split; [done|].
        destruct (Hrest relation_key) as [->|[_ ?]]; [|done].
        rewrite lookup_insert_eq. by destruct translated.
      * destruct (Hrest name) as [->|[Hold ?]].
        -- left. by rewrite lookup_insert_ne.
        -- right. by rewrite lookup_insert_ne in Hold.
    + intros [= <- _]. split; [done|]. split; [done|]. intros name. cbn.
      destruct (decide (relation_key = name)) as [<-|Hname].
      * right. rewrite Hvalue, lookup_insert_eq. split; [done|].
        by destruct translated.
      * left. by rewrite lookup_insert_ne.
    + intros Hrest. apply IH in Hrest as (-> & -> & Hrest).
      split; [done|]. split; [done|]. intros name. cbn in Hrest.
      destruct (decide (relation_key = name)) as [<-|Hname].
      * right. rewrite Hvalue. split; [done|].
        destruct (Hrest relation_key) as [->|[_ ?]]; [|done].
        rewrite lookup_insert_eq. by destruct prefetched, translated.
      * destruct (Hrest name) as [->|[Hold ?]].
        -- left. by rewrite lookup_insert_ne.
        -- right. by rewrite lookup_insert_ne in Hold.
    + intros [= <- _]. split; [done|]. split; [done|]. intros name. cbn.
      destruct (decide (relation_key = name)) as [<-|Hname].
      * right. rewrite Hvalue, lookup_insert_eq. split; [done|].
        by destruct prefetched, translated.
      * left. by rewrite lookup_insert_ne.
Qed.

Lemma get_translations_Filtered (app : App) (context : Context)
    (relations : list string) (lang : option string) (tag : string)
    (filter_query : list Q) :
  get_translations app context relations lang = Ok (Filtered tag filter_query) ->
  get_validated_language app lang = Ok tag.
Proof.
  unfold get_translations.
  destruct (get_validated_language app lang) as [validated|]; [|done].
  cbn -[get_related_query_name].
  destruct (fetch_context context) as [[[model filter_string] context_value]|];
    [|done].
  cbn -[get_related_query_name].
  destruct (if is_Translatable app model then _ else _) as [own|]; [|done].
  cbn -[get_related_query_name].
  destruct (relation_queries _ _ _ _ _) as [rel|]; [|done].
  cbn -[get_related_query_name].
  destruct (own ++ rel); cbn; [done|]. by intros [= -> _].
Qed.

(** The rows of translations fetched by the call itself are rows of the
    table in the language of the call. *)
Lemma fetched_row_language (app : App) (table : list Translation)
    (context : Context) (relations : list string) (tag : string)
    (used : TranslationsArg) (model : Model) (obj : Instance) (row : Translation) :
  get_validated_language app (Some tag) = Ok tag ->
  given_or_fetched app context relations tag ArgNone = Ok used ->
  listed_for app (translations_dict app table used) model obj row ->
  row ∈ table /\ language row = tag.
Proof.
  intros Hlang Hused (rows & Hrows & Hrow). cbn in Hused.
  destruct (get_translations app context relations (Some tag)) as [queryset|] eqn:Hq;
    [|done].
  injection Hused as <-. cbn [translations_dict] in Hrows.
  rewrite group_translations_lookup in Hrows.
  destruct (List.filter _ (fetch app queryset table)) as [|found rest] eqn:Hfound;
    [done|].
  injection Hrows as <-. rewrite <- Hfound in Hrow.
  apply list_elem_of_In, filter_In in Hrow as [Hrow _].
  apply filter_In in Hrow as [Hrow Hselected].
  split; [by apply list_elem_of_In|].
  destruct queryset as [validated filter_query|]; [|done].
  apply get_translations_Filtered in Hq. cbn in Hselected.
  apply andb_true_iff in Hselected as [Hselected _].
  apply bool_decide_eq_true_1 in Hselected. congruence.
Qed.

(** ** Persist, then overlay *)

Lemma find_unique_name (fields : list Field) (f : Field) :
  NoDup (f_name <$> fields) ->
  f ∈ fields ->
  List.find (fun g => bool_decide (f_name g = f_name f)) fields = Some f.
Proof.
  induction fields as [|g rest IH]; intros Hnames Hin.
  - by apply elem_of_nil in Hin.
  - rewrite fmap_cons, NoDup_cons in Hnames. destruct Hnames as [Hfresh Hrest].
    cbn. apply elem_of_cons in Hin as [->|Hin].
    + by rewrite bool_decide_eq_true_2.
    + rewrite bool_decide_eq_false_2; [by apply IH|].
      intros Hname. apply Hfresh. rewrite Hname. by apply list_elem_of_fmap_2.
Qed.

Lemma get_named_fields_lookup (app : App) (cls : Model) (names : list string) :
  forall fields f,
    get_named_fields app cls names = Ok fields ->
    f ∈ fields ->
    get_field app cls (f_name f) = Ok f.
Proof.
  induction names as [|field_name rest IH]; intros fields f.
  - intros [= <-] Hin. by apply elem_of_nil in Hin.
  - cbn [get_named_fields].
    destruct (get_field app cls field_name) as [g|] eqn:Hg; [|done]. cbn.
    destruct (get_named_fields app cls rest) as [gs|]; [|done]. cbn.
    intros [= <-] Hin. apply elem_of_cons in Hin as [->|Hin]; [|by eapply IH].
    by rewrite (get_field_name _ _ _ _ Hg).
Qed.

(** A translatable field is the field its name looks up. *)
Lemma translatable_field_lookup (app : App) (cls : Model)
    (translatable_fields : list Field) (f : Field) :
  NoDup (f_name <$> get_fields app cls) ->
  get_translatable_fields app cls = Ok translatable_fields ->
  f ∈ translatable_fields ->
  get_field app cls (f_name f) = Ok f.
Proof.
  intros Hnames. unfold get_translatable_fields.
  destruct (has_TranslatableMeta app cls); [|done].
  destruct (TranslatableMeta_fields app cls) as [names|].
  - apply get_named_fields_lookup.
  - intros [= <-] Hin. apply list_elem_of_In, filter_In in Hin as [Hin _].
    apply list_elem_of_In in Hin.
    unfold get_field. by rewrite find_unique_name.
Qed.




(** ** The depth of the overlay

    [translate] is run with one level of calls more than the longest
    relation has segments; the levels are never used up. *)

Lemma get_validated_language_Err (app : App) (lang : option string) (e : exn) :
  get_validated_language app lang = Err e -> e = ValidationError.
Proof.
  unfold get_validated_language, validate_language.
  destruct (if lang_given lang then lang else get_language app) as [tag|];
    [case_bool_decide|]; congruence.
Qed.

Lemma related_query_name_of_Err (app : App) (branch : list string) :
  forall model root e,
    related_query_name_of app model root branch = Err e ->
    e = FieldDoesNotExist \/ e = AttributeError.
Proof.
  induction branch as [|branch_root branch_rest IH]; intros model root e;
    cbn [related_query_name_of];
    (destruct (get_field app model root) as [f|e'] eqn:Hf;
     [|intros [= <-]; left; by eapply get_field_Err]);
    cbn; (destruct (f_remote f) as [[name branch_model]|];
          [|intros [= <-]; by right]).
  - done.
  - destruct (related_query_name_of app branch_model branch_root branch_rest)
      as [b|e'] eqn:Hb; [done|]. intros [= <-]. by eapply IH.
Qed.

Lemma get_translations_Err (app : App) (context : Context) (relations : list string)
    (lang : option string) (e : exn) :
  get_translations app context relations lang = Err e -> e <> RecursionError.
Proof.
  unfold get_translations.
  destruct (get_validated_language app lang) as [tag|e'] eqn:Hlang;
    [|intros [= <-]; by rewrite (get_validated_language_Err _ _ _ Hlang)].
  cbn -[get_related_query_name].
  destruct (fetch_context context) as [[[model filter_string] context_value]|e']
    eqn:Hcontext.
  2: { intros [= <-]. destruct context as [| [|] | |]; cbn in Hcontext; try discriminate;
         by injection Hcontext as <-. }
  cbn -[get_related_query_name].
  assert (forall relation e', get_related_query_name app model relation = Err e' ->
                              e' <> RecursionError) as Hname.
  { intros relation e' He'. apply related_query_name_of_Err in He'.
    by destruct He' as [-> | ->]. }
  destruct (if is_Translatable app model then _ else _) as [own|e'] eqn:Hown.
  2: { intros [= <-]. destruct (is_Translatable app model); [|done].
       destruct (get_related_query_name app model "translations") eqn:Hn; [done|].
       injection Hown as <-. by eapply Hname. }
  cbn -[get_related_query_name].
  destruct (relation_queries app model filter_string context_value relations)
    as [rel|e'] eqn:Hrel.
  2: { intros [= <-]. clear Hown. induction relations as [|relation rest IH]; [done|].
       cbn -[get_related_query_name] in Hrel.
       destruct (get_related_query_name app model _) eqn:Hn;
         [|injection Hrel as <-; by eapply Hname].
       cbn -[get_related_query_name] in Hrel.
       destruct (relation_queries app model filter_string context_value rest);
         [done|]. injection Hrel as <-. by apply IH. }
  cbn. destruct (own ++ rel); cbn; [|done]. by intros [= <-].
Qed.

Lemma get_translatable_fields_Err (app : App) (cls : Model) (e : exn) :
  get_translatable_fields app cls = Err e -> e <> RecursionError.
Proof.
  unfold get_translatable_fields.
  destruct (has_TranslatableMeta app cls); [|by intros [= <-]].
  destruct (TranslatableMeta_fields app cls) as [names|]; [|done].
  induction names as [|field_name rest IH]; [done|]. cbn [get_named_fields].
  destruct (get_field app cls field_name) as [f|e'] eqn:Hf;
    [|intros [= <-]; by rewrite (get_field_Err _ _ _ _ Hf)].
  cbn. destruct (get_named_fields app cls rest); [done|].
  intros [= <-]. by apply IH.
Qed.

Lemma relations_hierarchy_from_Err (relations : list string) :
  forall hierarchy e,
    relations_hierarchy_from hierarchy relations = Err e -> e = ValueError.
Proof.
  induction relations as [|relation rest IH]; intros hierarchy e; [done|].
  cbn [relations_hierarchy_from]. destruct (existsb _ _); [congruence|apply IH].
Qed.

Lemma relations_hierarchy_from_segments (relations : list string) :
  forall hierarchy result,
    relations_hierarchy_from hierarchy relations = Ok result ->
    forall relation, relation ∈ relations -> "" ∉ split relation.
Proof.
  induction relations as [|first rest IH]; intros hierarchy result Hrun relation Hin.
  - by apply elem_of_nil in Hin.
  - cbn [relations_hierarchy_from] in Hrun. rewrite has_empty_segment in Hrun.
    case_bool_decide as Hfirst; [done|].
    apply elem_of_cons in Hin as [->|Hin]; [done|]. by eapply IH.
Qed.

Lemma depth_cons (relation : string) (relations : list string) :
  depth (relation :: relations)
  = Nat.max (length (split relation)) (depth relations).
Proof. reflexivity. Qed.

Lemma depth_bound (relations : list string) (relation : string) :
  relation ∈ relations -> (length (split relation) <= depth relations)%nat.
Proof.
  induction relations as [|first rest IH]; intros Hin.
  - by apply elem_of_nil in Hin.
  - rewrite depth_cons. apply elem_of_cons in Hin as [->|Hin]; [lia|].
    specialize (IH Hin). lia.
Qed.

Lemma depth_below (relations : list string) (n : nat) :
  (0 < n)%nat ->
  (forall relation, relation ∈ relations -> (length (split relation) < n)%nat) ->
  (depth relations < n)%nat.
Proof.
  intros Hn. induction relations as [|first rest IH]; intros Hall; [done|].
  rewrite depth_cons. pose proof (Hall first (list_elem_of_here _ _)).
  assert (depth rest < n)%nat
    by (apply IH; intros r Hr; by apply Hall, list_elem_of_further).
  lia.
Qed.

(** The descendants of a first-level relation are one segment shorter than
    the relations they come from. *)
Lemma descendants_depth (relations : list string)
    (relations_dict : list (string * list string))
    (relation_key : string) (relation_descendants : list string) :
  get_relations_hierarchy relations = Ok relations_dict ->
  (relation_key, relation_descendants) ∈ relations_dict ->
  (depth relation_descendants < depth relations)%nat.
Proof.
  intros Hdict Hentry.
  pose proof (relations_hierarchy_from_segments _ _ _ Hdict) as Hsegments.
  pose proof (relations_hierarchy_from_grouped relations [] Hsegments) as Hgrouped.
  unfold get_relations_hierarchy in Hdict. change (grouped_hierarchy []) with
    (@nil (string * list string)) in Hgrouped.
  rewrite Hgrouped in Hdict. injection Hdict as <-. cbn [app] in Hentry.
  apply list_elem_of_fmap in Hentry as (key & [= -> ->] & Hkey).
  apply first_occurrences_elem, list_elem_of_fmap in Hkey as (witness & _ & Hwitness).
  pose proof (depth_bound _ _ Hwitness) as Hdepth.
  destruct (split_cons witness) as (part & parts & Hparts).
  rewrite Hparts in Hdepth. cbn in Hdepth.
  apply depth_below; [lia|]. intros nest Hnest.
  apply list_elem_of_omap in Hnest as (path & Hpath & Hnest).
  destruct (String.eqb (first_segment path) key
            && (1 <? length (split path))%nat) eqn:Hcond; [|done].
  injection Hnest as <-. apply andb_true_iff in Hcond as [_ Hlong].
  apply Nat.ltb_lt in Hlong. pose proof (depth_bound _ _ Hpath) as Hbound.
  unfold remaining_segments.
  destruct (split path) as [|root branch] eqn:Hsplit; [cbn in Hlong; lia|].
  cbn [tl]. rewrite (split_join_branch path root branch Hsplit).
  - cbn in Hbound. lia.
  - intros ->. cbn in Hlong. lia.
Qed.

Lemma for_each_Err {A} (body : Mut A unit) (xs : list A) :
  forall xs' e,
    for_each body xs = (xs', Err e) ->
    exists x x', x ∈ xs /\ body x = (x', Err e).
Proof.
  induction xs as [|y rest IH]; intros xs' e; [done|]. cbn [for_each].
  destruct (body y) as [y' [[]|e']] eqn:Hy.
  - destruct (for_each body rest) as [rest' r] eqn:Hrest. intros [= <- ->].
    destruct (IH _ _ eq_refl) as (x & x' & Hin & Hx).
    exists x, x'. split; [by apply list_elem_of_further|done].
  - intros [= <- <-]. exists y, y'. split; [apply list_elem_of_here|done].
Qed.

Lemma each_instance_Err (body : Mut Instance unit) (context context' : Context)
    (e : exn) :
  each_instance body context = (context', Err e) ->
  exists obj obj', body obj = (obj', Err e).
Proof.
  destruct context as [model rows|items|only|]; cbn.
  - destruct (for_each body rows) as [rows' r] eqn:Hrows. intros [= <- ->].
    destruct (for_each_Err _ _ _ _ Hrows) as (x & x' & _ & Hx). by exists x, x'.
  - destruct (for_each body items) as [items' r] eqn:Hitems. intros [= <- ->].
    destruct (for_each_Err _ _ _ _ Hitems) as (x & x' & _ & Hx). by exists x, x'.
  - destruct (body only) as [only' r] eqn:Honly. intros [= <- ->]. by exists only, only'.
  - done.
Qed.

Lemma translate_rel_Err (nested : list string -> Mut Context unit)
    (relations_dict : list (string * list string)) :
  forall obj obj' e,
    translate_rel nested relations_dict obj = (obj', Err e) ->
    exists relation_key relation_descendants related related',
      (relation_key, relation_descendants) ∈ relations_dict
      /\ nested relation_descendants related = (related', Err e).
Proof.
  induction relations_dict as [|[relation_key relation_descendants] rest IH];
    intros obj obj' e; [done|].
  assert (forall other,
    translate_rel nested rest other = (obj', Err e) ->
    exists key descendants related related',
      (key, descendants) ∈ (relation_key, relation_descendants) :: rest
      /\ nested descendants related = (related', Err e)) as Hrest.
  { intros other Hother.
    destruct (IH _ _ _ Hother) as (key & descendants & related & related' & Hin & Hrun).
    exists key, descendants, related, related'.
    split; [by apply list_elem_of_further|done]. }
  cbn [translate_rel].
  destruct (getattr obj relation_key) as [|s|related|model prefetched rows] eqn:Hvalue;
    [apply Hrest|..];
    (destruct (nested relation_descendants _)
       as [translated [[]|e']] eqn:Hnested;
     [apply Hrest|intros [= _ <-]; do 4 eexists;
                  split; [apply list_elem_of_here|exact Hnested]]).
Qed.

(** The levels suffice: a call with more levels than the relations are deep
    never runs out of them. *)
Lemma translate_rec_depth (app : App) (table : list Translation) (fuel : nat) :
  forall relations lang given context context' e,
    (depth relations < fuel)%nat ->
    translate_rec app fuel table relations lang given context = (context', Err e) ->
    e <> RecursionError.
Proof.
  induction fuel as [|fuel IH]; intros relations lang given context context' e Hdepth;
    [lia|].
  cbn [translate_rec].
  unfold mut_bind at 1. unfold lift at 1.
  destruct (get_validated_language app lang) as [tag|e'] eqn:Hlang;
    [|intros [= _ <-]; by rewrite (get_validated_language_Err _ _ _ Hlang)].
  unfold mut_bind at 1. unfold lift at 1.
  destruct (overlay_context context) as [[model is_plural]|e'] eqn:Hcontext.
  2: { intros [= _ <-]. destruct context as [| [|] | |]; cbn in Hcontext; try discriminate;
         by injection Hcontext as <-. }
  unfold mut_bind at 1. unfold lift at 1.
  destruct (given_or_fetched app context relations tag given) as [used|e'] eqn:Hused.
  2: { intros [= _ <-]. destruct given; try done. cbn in Hused.
       destruct (get_translations app context relations (Some tag)) eqn:Hq; [done|].
       injection Hused as <-. by eapply get_translations_Err. }
  unfold mut_bind at 1.
  match goal with
  | |- (let (_, _) := ?stage in _) = _ -> _ =>
      destruct stage as [overlaid [[]|e']] eqn:Hself
  end.
  2: { intros [= _ <-]. destruct (is_Translatable app model); [|done].
       unfold mut_bind, lift in Hself.
       destruct (get_translatable_fields app model) as [fields|e''] eqn:Hfields;
         [|injection Hself as _ <-; by eapply get_translatable_fields_Err].
       apply each_instance_Err in Hself as (obj & obj' & Hobj).
       unfold translate_obj in Hobj. destruct (_ ≫= _); [|done].
       by rewrite (apply_translations_Err _ _ _ _ _ _ _ Hobj). }
  unfold mut_bind at 1. unfold lift at 1.
  destruct (get_relations_hierarchy relations) as [relations_dict|e'] eqn:Hdict;
    [|intros [= _ <-]; by rewrite (relations_hierarchy_from_Err _ _ _ Hdict)].
  destruct (0 <? length relations_dict)%nat; [|done].
  intros Hrel. apply each_instance_Err in Hrel as (obj & obj' & Hobj).
  apply translate_rel_Err in Hobj
    as (key & descendants & related & related' & Hentry & Hnested).
  eapply IH; [|exact Hnested].
  pose proof (descendants_depth _ _ _ _ Hdict Hentry). lia.
Qed.

(** [translate] never raises for want of levels. *)
Lemma translate_depth (app : App) (table : list Translation) (context : Context)
    (relations : list string) (lang : option string) (given : TranslationsArg)
    (context' : Context) (e : exn) :
  translate app table context relations lang given = (context', Err e) ->
  e <> RecursionError.
Proof. apply translate_rec_depth. lia. Qed.

(** ** The keys of the hierarchy *)

Lemma NoDup_first_occurrences (keys : list string) : NoDup (first_occurrences keys).
Proof.
  induction keys as [|key rest IH]; [constructor|]. cbn [first_occurrences].
  apply NoDup_cons. split.
  - rewrite list_elem_of_In, filter_In, String.eqb_refl. by intros [_ ?].
  - apply NoDup_ListNoDup, List.NoDup_filter. by apply NoDup_ListNoDup.
Qed.

(** The keys of the hierarchy are pairwise distinct. *)
Lemma relations_hierarchy_keys (relations : list string)
    (hierarchy : list (string * list string)) :
  get_relations_hierarchy relations = Ok hierarchy -> NoDup hierarchy.*1.
Proof.
  intros Hok.
  pose proof (relations_hierarchy_from_segments _ _ _ Hok) as Hsegments.
  pose proof (relations_hierarchy_from_grouped relations [] Hsegments) as Hgrouped.
  unfold get_relations_hierarchy in Hok.
  change (grouped_hierarchy []) with (@nil (string * list string)) in Hgrouped.
  rewrite Hgrouped in Hok. injection Hok as <-. cbn [app].
  unfold grouped_hierarchy. rewrite <- list_fmap_compose, list_fmap_id.
  apply NoDup_first_occurrences.
Qed.

(** ** What the overlay changes *)

Lemma for_each_Forall2 {A} (P : A -> A -> Prop) (body : Mut A unit) (xs : list A) :
  (forall x, P x x) ->
  (forall x x' r, body x = (x', r) -> P x x') ->
  forall xs' r, for_each body xs = (xs', r) -> Forall2 P xs xs'.
Proof.
  intros Hrefl Hbody. induction xs as [|y rest IH]; intros xs' r Hrun.
  - injection Hrun as <- _. constructor.
  - cbn [for_each] in Hrun. destruct (body y) as [y' [[]|e]] eqn:Hy.
    + destruct (for_each body rest) as [rest' r'] eqn:Hrest.
      injection Hrun as <- <-. constructor; [by eapply Hbody|by eapply IH].
    + injection Hrun as <- <-. constructor; [by eapply Hbody|].
      clear -Hrefl. induction rest; by constructor.
Qed.

Lemma each_instance_Forall2 (P : Instance -> Instance -> Prop)
    (body : Mut Instance unit) (c c' : Context) (r : result unit) :
  (forall x, P x x) ->
  (forall x x' r', body x = (x', r') -> P x x') ->
  each_instance body c = (c', r) ->
  Forall2 P (instances c) (instances c').
Proof.
  intros Hrefl Hbody Hrun. destruct c as [model rows|items|only|]; cbn in *.
  - destruct (for_each body rows) as [rows' r'] eqn:Hrows. injection Hrun as <- <-.
    by eapply for_each_Forall2.
  - destruct (for_each body items) as [items' r'] eqn:Hitems. injection Hrun as <- <-.
    by eapply for_each_Forall2.
  - destruct (body only) as [only' r'] eqn:Honly. injection Hrun as <- <-.
    repeat constructor. by eapply Hbody.
  - injection Hrun as <- _. constructor.
Qed.

Lemma same_entities_refl (c : Context) :
  Forall2 same_entity (instances c) (instances c).
Proof. induction (instances c); by constructor. Qed.

(** A call of [translate] leaves the entities of the context in place: as
    many instances, each of the class and with the id it had. *)
Lemma translate_rec_entities (app : App) (fuel : nat) (table : list Translation)
    (relations : list string) (lang : option string) (given : TranslationsArg)
    (context context' : Context) (r : result unit) :
  translate_rec app fuel table relations lang given context = (context', r) ->
  Forall2 same_entity (instances context) (instances context').
Proof.
  intros Hrun.
  destruct fuel as [|fuel]; [injection Hrun as <- <-; apply same_entities_refl|].
  cbn [translate_rec] in Hrun.
  unfold mut_bind at 1 in Hrun. unfold lift at 1 in Hrun.
  destruct (get_validated_language app lang) as [tag|];
    [|injection Hrun as <- <-; apply same_entities_refl].
  unfold mut_bind at 1 in Hrun. unfold lift at 1 in Hrun.
  destruct (overlay_context context) as [[model is_plural]|];
    [|injection Hrun as <- <-; apply same_entities_refl].
  unfold mut_bind at 1 in Hrun. unfold lift at 1 in Hrun.
  destruct (given_or_fetched app context relations tag given) as [used|];
    [|injection Hrun as <- <-; apply same_entities_refl].
  unfold mut_bind at 1 in Hrun.
  assert (forall overlaid r1,
    (if is_Translatable app model then
       mut_bind (lift (get_translatable_fields app model))
         (fun translatable_fields =>
            each_instance (translate_obj app model translatable_fields
                             (translations_dict app table used)))
     else mut_ret tt) context = (overlaid, r1) ->
    Forall2 same_entity (instances context) (instances overlaid)) as Hstage.
  { intros overlaid r1. destruct (is_Translatable app model);
      [|intros [= <- _]; apply same_entities_refl].
    unfold mut_bind, lift.
    destruct (get_translatable_fields app model) as [fields|];
      [|intros [= <- _]; apply same_entities_refl].
    intros Heach. eapply each_instance_Forall2; [done| |exact Heach].
    intros x x' r' Hx. apply translate_obj_frame in Hx as (Hm & Hi & _). by split. }
  match type of Hrun with
  | (let (_, _) := ?stage in _) = _ =>
      destruct stage as [overlaid [[]|e]] eqn:Hself
  end;
    [|injection Hrun as <- <-; by eapply Hstage].
  unfold mut_bind at 1 in Hrun. unfold lift at 1 in Hrun.
  destruct (get_relations_hierarchy relations) as [relations_dict|];
    [|injection Hrun as <- <-; by eapply Hstage].
  destruct (0 <? length relations_dict)%nat;
    [|injection Hrun as <- <-; by eapply Hstage].
  apply Forall2_trans with (P := same_entity) (Q := same_entity)
                           (k := instances overlaid).
  - intros x y z [Hm Hi] [Hm' Hi']. split; congruence.
  - by eapply Hstage.
  - eapply each_instance_Forall2; [done| |exact Hrun].
    intros x x' r' Hx. apply translate_rel_frame in Hx as (Hm & Hi & _).
    split; [exact Hm|exact Hi].
Qed.

Lemma related_value_cases (relation_value : Value) (translated : Context) :
  related_value relation_value translated = relation_value
  \/ overlaid_relation relation_value translated
       (Some (related_value relation_value translated)).
Proof.
  destruct relation_value as [|s|related|model [] rows], translated; cbn; auto.
Qed.

(** [translate_rel] on one instance: an attribute changes only by being
    replaced with what the nested call left of the related objects it
    held. *)
Lemma translate_rel_changes (nested : list string -> Mut Context unit)
    (relations_dict : list (string * list string)) :
  NoDup relations_dict.*1 ->
  forall obj obj' r,
    translate_rel nested relations_dict obj = (obj', r) ->
    same_entity obj obj'
    /\ forall name,
         inst_attrs obj' !! name = inst_attrs obj !! name
         \/ exists descendants before translated r',
              (name, descendants) ∈ relations_dict
              /\ inst_attrs obj !! name = Some before
              /\ nested descendants (related_context before) = (translated, r')
              /\ overlaid_relation before translated (inst_attrs obj' !! name).
Proof.
  induction relations_dict as [|[relation_key relation_descendants] rest IH];
    intros Hkeys obj obj' r.
  - intros [= <- _]. split; [done|]. by left.
  - rewrite fmap_cons, NoDup_cons in Hkeys. destruct Hkeys as [Hfresh Hrest].
    assert (forall start,
               inst_attrs start = inst_attrs obj -> same_entity obj start ->
               translate_rel nested rest start = (obj', r) ->
               same_entity obj obj'
               /\ forall name,
                    inst_attrs obj' !! name = inst_attrs obj !! name
                    \/ exists descendants before translated r',
                         (name, descendants)
                         ∈ (relation_key, relation_descendants) :: rest
                         /\ inst_attrs obj !! name = Some before
                         /\ nested descendants (related_context before)
                            = (translated, r')
                         /\ overlaid_relation before translated
                              (inst_attrs obj' !! name)) as Hskip.
    { intros start Hattrs [Hm Hi] Hrun.
      destruct (IH Hrest _ _ _ Hrun) as [[Hm' Hi'] Hrel].
      split; [split; congruence|]. intros name. rewrite <- Hattrs.
      destruct (Hrel name) as [?|(d & b & t & r' & Hin & ?)]; [by left|].
      right. exists d, b, t, r'. split; [by apply list_elem_of_further|done]. }
    cbn [translate_rel]. unfold getattr.
    destruct (inst_attrs obj !! relation_key) as [relation_value|] eqn:Hvalue;
      cbn [default from_option Datatypes.id]; [|by apply Hskip].
    assert (forall translated res,
               nested relation_descendants (related_context relation_value)
               = (translated, res) ->
               match res with
               | Ok _ =>
                   translate_rel nested rest
                     (setattr obj relation_key (related_value relation_value translated))
               | Err e =>
                   (setattr obj relation_key (related_value relation_value translated),
                    Err e)
               end = (obj', r) ->
               same_entity obj obj'
               /\ forall name,
                    inst_attrs obj' !! name = inst_attrs obj !! name
                    \/ exists descendants before translated r',
                         (name, descendants)
                         ∈ (relation_key, relation_descendants) :: rest
                         /\ inst_attrs obj !! name = Some before
                         /\ nested descendants (related_context before)
                            = (translated, r')
                         /\ overlaid_relation before translated
                              (inst_attrs obj' !! name)) as Hstep.
    { intros translated res Hnested Hrun.
      set (value := related_value relation_value translated) in *.
      assert (forall current : option Value,
                 current = Some value ->
                 current = inst_attrs obj !! relation_key
                 \/ exists descendants before translated r',
                      (relation_key, descendants)
                      ∈ (relation_key, relation_descendants) :: rest
                      /\ inst_attrs obj !! relation_key = Some before
                      /\ nested descendants (related_context before) = (translated, r')
                      /\ overlaid_relation before translated current) as Hkey.
      { intros current ->. unfold value.
        destruct (related_value_cases relation_value translated) as [->|Hoverlaid];
          [by left|].
        right. exists relation_descendants, relation_value, translated, res.
        split; [apply list_elem_of_here|done]. }
      destruct res as [[]|e].
      - destruct (IH Hrest _ _ _ Hrun) as [[Hm Hi] Hrel].
        split; [by split|]. intros name.
        destruct (decide (relation_key = name)) as [<-|Hname].
        + destruct (Hrel relation_key) as [Heq|(d & b & t & r' & Hin & _)].
          * apply Hkey. rewrite Heq. cbn. by rewrite lookup_insert_eq.
          * exfalso. apply Hfresh. apply list_elem_of_fmap.
            by exists (relation_key, d).
        + destruct (Hrel name) as [Heq|(d & b & t & r' & Hin & Hb & Hrest')].
          * left. rewrite Heq. cbn. by rewrite lookup_insert_ne.
          * right. exists d, b, t, r'. split; [by apply list_elem_of_further|].
            split; [|done]. cbn in Hb. by rewrite lookup_insert_ne in Hb.
      - injection Hrun as <- _. split; [by split|]. intros name.
        destruct (decide (relation_key = name)) as [<-|Hname].
        + apply Hkey. cbn. by rewrite lookup_insert_eq.
        + left. cbn. by rewrite lookup_insert_ne. }
    destruct relation_value as [|s|related|model prefetched rows].
    + by apply Hskip.
    + destruct (nested relation_descendants _) as [translated [[]|e]];
        [by apply Hskip|].
      intros [= <- _]. split; [done|]. by left.
    + destruct (nested relation_descendants _) as [translated res] eqn:Hnested.
      intros Hrun. apply (Hstep translated res eq_refl). by destruct res as [[]|e].
    + destruct (nested relation_descendants _) as [translated res] eqn:Hnested.
      intros Hrun. apply (Hstep translated res eq_refl). by destruct res as [[]|e].
Qed.

(** C5 (as amended). In every call of [translate], nested ones included,
    each instance of the context keeps its class and id, and an attribute
    whose value changed is of one of two kinds.  Either it held related
    objects under a key of the relation hierarchy, and now holds what the
    nested call of [translate] on these objects, with the descendants of
    the key, the language and the translations of this call, left of them:
    the same entities, to which this statement applies in turn.  Or it
    names a translatable field of the model that the instance has, and
    holds the non-empty text of a row that the translations used by the
    call list for the instance under that field name: a row with empty text
    never replaces a value.  When the call fetched the translations itself,
    that row is a row of the table in the requested language. *)
Theorem overlay_is_selective (app : App) (fuel : nat) (table : list Translation)
    (relations : list string) (lang : option string) (given : TranslationsArg)
    (context context' : Context) (r : result unit) :
  translate_rec app fuel table relations lang given context = (context', r) ->
  forall i obj,
    instances context !! i = Some obj ->
    exists obj',
      instances context' !! i = Some obj'
      /\ inst_model obj' = inst_model obj /\ inst_id obj' = inst_id obj
      /\ forall name,
           inst_attrs obj' !! name <> inst_attrs obj !! name ->
           (exists tag used hierarchy descendants levels before translated r',
               fuel = S levels
               /\ get_validated_language app lang = Ok tag
               /\ given_or_fetched app context relations tag given = Ok used
               /\ get_relations_hierarchy relations = Ok hierarchy
               /\ (name, descendants) ∈ hierarchy
               /\ inst_attrs obj !! name = Some before
               /\ translate_rec app levels table descendants (Some tag)
                    (ArgDict (translations_dict app table used))
                    (related_context before)
                  = (translated, r')
               /\ Forall2 same_entity (instances (related_context before))
                    (instances translated)
               /\ overlaid_relation before translated (inst_attrs obj' !! name))
           \/ exists tag model is_plural translatable_fields used f row,
                get_validated_language app lang = Ok tag
                /\ overlay_context context = Ok (model, is_plural)
                /\ is_Translatable app model = true
                /\ get_translatable_fields app model = Ok translatable_fields
                /\ given_or_fetched app context relations tag given = Ok used
                /\ get_field app model name = Ok f
                /\ f ∈ translatable_fields
                /\ hasattr obj name = true
                /\ listed_for app (translations_dict app table used) model obj row
                /\ field row = name
                /\ nonempty (text row) = true
                /\ inst_attrs obj' !! name = Some (VStr (text row))
                /\ (given = ArgNone -> row ∈ table /\ language row = tag).
Proof.
  intros Hrun.
  set (T := fun (obj obj' : Instance) (name : string) =>
    exists tag model is_plural translatable_fields used f row,
      get_validated_language app lang = Ok tag
      /\ overlay_context context = Ok (model, is_plural)
      /\ is_Translatable app model = true
      /\ get_translatable_fields app model = Ok translatable_fields
      /\ given_or_fetched app context relations tag given = Ok used
      /\ get_field app model name = Ok f
      /\ f ∈ translatable_fields
      /\ hasattr obj name = true
      /\ listed_for app (translations_dict app table used) model obj row
      /\ field row = name
      /\ nonempty (text row) = true
      /\ inst_attrs obj' !! name = Some (VStr (text row))
      /\ (given = ArgNone -> row ∈ table /\ language row = tag)).
  set (R := fun (obj obj' : Instance) (name : string) =>
    exists tag used hierarchy descendants levels before translated r',
      fuel = S levels
      /\ get_validated_language app lang = Ok tag
      /\ given_or_fetched app context relations tag given = Ok used
      /\ get_relations_hierarchy relations = Ok hierarchy
      /\ (name, descendants) ∈ hierarchy
      /\ inst_attrs obj !! name = Some before
      /\ translate_rec app levels table descendants (Some tag)
           (ArgDict (translations_dict app table used)) (related_context before)
         = (translated, r')
      /\ Forall2 same_entity (instances (related_context before)) (instances translated)
      /\ overlaid_relation before translated (inst_attrs obj' !! name)).
  set (P := fun obj obj' : Instance =>
    inst_model obj' = inst_model obj /\ inst_id obj' = inst_id obj
    /\ forall name,
         inst_attrs obj' !! name = inst_attrs obj !! name
         \/ R obj obj' name \/ T obj obj' name).
  set (P1 := fun obj obj' : Instance =>
    inst_model obj' = inst_model obj /\ inst_id obj' = inst_id obj
    /\ forall name,
         inst_attrs obj' !! name = inst_attrs obj !! name \/ T obj obj' name).
  assert (forall x, P1 x x) as Hrefl by (intros x; repeat split; by left).
  assert (forall x y, P1 x y -> P x y) as Hweaken.
  { intros x y (Hm & Hi & Hattrs). split; [done|]. split; [done|]. intros name.
    destruct (Hattrs name); [by left|by right; right]. }
  assert (forall c c', elementwise P1 c c' -> elementwise P c c') as Hlift.
  { intros c c' Hall i obj Hobj. destruct (Hall i obj Hobj) as (obj' & ? & ?).
    exists obj'. split; [done|]. by apply Hweaken. }
  cut (elementwise P context context').
  { intros Hall i obj Hobj.
    destruct (Hall i obj Hobj) as (obj' & Hobj' & Hmodel & Hid & Hattrs).
    exists obj'. split; [done|]. split; [done|]. split; [done|].
    intros name Hchanged. by destruct (Hattrs name) as [?|[?|?]]; [|left|right]. }
  destruct fuel as [|fuel];
    [injection Hrun as <- <-; by apply Hlift, elementwise_refl|].
  cbn [translate_rec] in Hrun.
  unfold mut_bind at 1 in Hrun. unfold lift at 1 in Hrun.
  destruct (get_validated_language app lang) as [tag|] eqn:Hlang;
    [|injection Hrun as <- <-; by apply Hlift, elementwise_refl].
  unfold mut_bind at 1 in Hrun. unfold lift at 1 in Hrun.
  destruct (overlay_context context) as [[model is_plural]|] eqn:Hcontext;
    [|injection Hrun as <- <-; by apply Hlift, elementwise_refl].
  unfold mut_bind at 1 in Hrun. unfold lift at 1 in Hrun.
  destruct (given_or_fetched app context relations tag given) as [used|] eqn:Hused;
    [|injection Hrun as <- <-; by apply Hlift, elementwise_refl].
  unfold mut_bind at 1 in Hrun.
  assert (forall overlaid r1,
    (if is_Translatable app model then
       mut_bind (lift (get_translatable_fields app model))
         (fun translatable_fields =>
            each_instance (translate_obj app model translatable_fields
                             (translations_dict app table used)))
     else mut_ret tt) context = (overlaid, r1) ->
    elementwise P1 context overlaid) as Hstage.
  { intros overlaid r1. destruct (is_Translatable app model) eqn:Htr;
      [|intros [= <- _]; by apply elementwise_refl].
    unfold mut_bind, lift.
    destruct (get_translatable_fields app model) as [fields|] eqn:Hfields;
      [|intros [= <- _]; by apply elementwise_refl].
    intros Heach. eapply each_instance_elementwise; [done| |exact Heach].
    intros x x' r' Hx. apply translate_obj_frame in Hx as (Hm & Hi & Hx).
    split; [done|]. split; [done|]. intros name.
    destruct (Hx name) as [?|(f & row & Hf & Htf & Hhas & Hlisted & Hfield
                               & Htext & Hset)]; [by left|].
    right. exists tag, model, is_plural, fields, used, f, row.
    do 12 (split; [done|]).
    intros ->. eapply fetched_row_language; [|done..].
    by eapply get_validated_language_again. }
  match type of Hrun with
  | (let (_, _) := ?stage in _) = _ =>
      destruct stage as [overlaid [[]|e]] eqn:Hself
  end;
    [|injection Hrun as <- <-; by eapply Hlift, Hstage].
  unfold mut_bind at 1 in Hrun. unfold lift at 1 in Hrun.
  destruct (get_relations_hierarchy relations) as [relations_dict|] eqn:Hhierarchy;
    [|injection Hrun as <- <-; by eapply Hlift, Hstage].
  destruct (0 <? length relations_dict)%nat;
    [|injection Hrun as <- <-; by eapply Hlift, Hstage].
  set (nested := fun relation_descendants : list string =>
    translate_rec app fuel table relation_descendants (Some tag)
      (ArgDict (translations_dict app table used))) in *.
  set (Q := fun obj obj' : Instance =>
    same_entity obj obj'
    /\ forall name,
         inst_attrs obj' !! name = inst_attrs obj !! name
         \/ exists descendants before translated r',
              (name, descendants) ∈ relations_dict
              /\ inst_attrs obj !! name = Some before
              /\ nested descendants (related_context before) = (translated, r')
              /\ overlaid_relation before translated (inst_attrs obj' !! name)).
  eapply (elementwise_trans P1 Q P); [|by eapply Hstage|].
  - intros x y z (Hm & Hi & Hself') ([Hm' Hi'] & Hrel).
    split; [congruence|]. split; [congruence|]. intros name.
    destruct (Hrel name) as [Hsame|(d & before & translated & r' & Hin & Hb & Hn & Ho)].
    + rewrite Hsame. destruct (Hself' name) as [?|Htext]; [by left|].
      right. right.
      destruct Htext as (t & m & p & tf & u & f & row & Htext).
      exists t, m, p, tf, u, f, row. rewrite Hsame.
      by destruct Htext as (? & ? & ? & ? & ? & ? & ? & ? & ? & ? & ? & ? & ?).
    + destruct (Hself' name) as [Hsame|Htext].
      * right. left. exists tag, used, relations_dict, d, fuel, before, translated, r'.
        do 5 (split; [done|]). split; [by rewrite <- Hsame|].
        split; [exact Hn|]. split; [|done]. by eapply translate_rec_entities.
      * exfalso. destruct Htext as (? & ? & ? & ? & ? & ? & row & Htext).
        destruct Htext as (_ & _ & _ & _ & _ & _ & _ & _ & _ & _ & _ & Hset & _).
        rewrite Hset in Hb. injection Hb as <-. done.
  - eapply each_instance_elementwise; [| |exact Hrun].
    + intros x. split; [done|]. by left.
    + intros x x' r'. apply translate_rel_changes. by eapply relations_hierarchy_keys.
Qed.

Lemma overlay_is_selective_witness :
  let table := [row 7 "1" "name" "de" "Europa"; row 7 "1" "denonym" "de" "";
                row 7 "1" "contact" "de" "eu@beispiel.de";
                row 7 "1" "name" "en" "Europe (en)"] in
  let overlaid :=
    translate_rec sample 1 table [] (Some "de") ArgNone (ModelInstance europe) in
  let given :=
    ArgDict {[ 8%Z := {[ "1" := [row 8 "1" "name" "de" "Deutschland"] ]} ]} in
  let germany := instance_of Country 1 [("name", VStr "Germany"); ("code", VStr "DE")] in
  let parent := setattr europe "countries" (VManager Country true [germany]) in
  let through :=
    translate_rec sample 2 [] ["countries"] (Some "de") given (ModelInstance parent) in
  overlaid = (ModelInstance (setattr europe "name" (VStr "Europa")), Ok tt)
  /\ (exists obj',
       instances overlaid.1 !! 0%nat = Some obj'
       /\ forall name,
            inst_attrs obj' !! name <> inst_attrs europe !! name ->
            exists row, row ∈ table /\ language row = "de" /\ field row = name
                        /\ inst_attrs obj' !! name = Some (VStr (text row)))
  /\ through
     = (ModelInstance
          (setattr parent "countries"
             (VManager Country true [setattr germany "name" (VStr "Deutschland")])),
        Ok tt)
  /\ exists obj' translated r',
       instances through.1 !! 0%nat = Some obj'
       /\ translate_rec sample 1 [] [] (Some "de") given (QuerySet Country [germany])
          = (translated, r')
       /\ overlaid_relation (VManager Country true [germany]) translated
            (inst_attrs obj' !! "countries").
Proof.
  intros table overlaid given germany parent through.
  split; [by vm_compute|]. split; [|split; [by vm_compute|]].
  - destruct (overlay_is_selective sample 1 table [] (Some "de") ArgNone
                (ModelInstance europe) overlaid.1 overlaid.2 eq_refl 0%nat europe eq_refl)
      as (obj' & Hobj' & _ & _ & Hattrs).
    exists obj'. split; [exact Hobj'|]. intros name Hchanged.
    destruct (Hattrs name Hchanged) as [Hrelated|Hrow].
    + exfalso.
      destruct Hrelated as (? & ? & hierarchy & ? & ? & ? & ? & ? & Hrelated).
      destruct Hrelated as (_ & _ & _ & Hhierarchy & Hin & _).
      injection Hhierarchy as <-. by apply elem_of_nil in Hin.
    + destruct Hrow as (tag & model & is_plural & fields & used & f & found & Hrow).
      destruct Hrow as (Htag & _ & _ & _ & _ & _ & _ & _ & _ & Hfield & _ & Hset & Hlang).
      injection Htag as <-. destruct (Hlang eq_refl) as [Hin Hde].
      by exists found.
  - destruct (overlay_is_selective sample 2 [] ["countries"] (Some "de") given
                (ModelInstance parent) through.1 through.2 eq_refl 0%nat parent eq_refl)
      as (obj' & Hobj' & _ & _ & Hattrs).
    assert (obj' = setattr parent "countries"
                     (VManager Country true
                        [setattr germany "name" (VStr "Deutschland")])) as Hvalue
      by (vm_compute in Hobj'; injection Hobj' as <-; by vm_compute).
    destruct (Hattrs "countries") as [Hrelated|Htext].
    + rewrite Hvalue. by vm_compute.
    + destruct Hrelated
        as (tag & used & hierarchy & d & levels & before & translated & r' & Hrelated).
      destruct Hrelated as (Hfuel & Htag & Hused & Hhierarchy & Hin & Hbefore & Hnested
                            & _ & Hoverlaid).
      injection Hfuel as <-. injection Htag as <-. injection Hused as <-.
      injection Hhierarchy as <-. apply list_elem_of_singleton in Hin.
      injection Hin as <-.
      assert (before = VManager Country true [germany]) as ->
        by (vm_compute in Hbefore; injection Hbefore as <-; by vm_compute).
      exists obj', translated, r'. split; [exact Hobj'|]. split; [exact Hnested|done].
    + exfalso.
      destruct Htext as (tag & model & is_plural & fields & used & f & found & Htext).
      destruct Htext as (_ & Hmodel & _ & Hfields & _ & Hf & Hin & _).
      injection Hmodel as <- _. injection Hfields as <-. injection Hf as <-.
      repeat (apply elem_of_cons in Hin as [Hin|Hin]; [discriminate Hin|]).
      by apply elem_of_nil in Hin.
Defined.

(** C5, counterexample to the claim as stated. The translations handed to
    the call hold one row, in German; the overlay is asked for English and
    replaces the name all the same: no row of the requested language
    matches the field that changed. *)
Lemma overlay_applies_rows_of_another_language :
  let given := ArgDict {[ 7%Z := {[ "1" := [row 7 "1" "name" "de" "Europa"] ]} ]} in
  translate sample [] (ModelInstance europe) [] (Some "en") given
  = (ModelInstance (setattr europe "name" (VStr "Europa")), Ok tt)
  /\ getattr europe "name" = VStr "Europe"
  /\ getattr (setattr europe "name" (VStr "Europa")) "name" = VStr "Europa"
  /\ forall found,
       listed_for sample (translations_dict sample [] given) Continent europe found ->
       language found <> "en".
Proof.
  intros given. split; [by vm_compute|]. split; [by vm_compute|].
  split; [by vm_compute|].
  intros found (rows & Hrows & Hfound). vm_compute in Hrows.
  injection Hrows as <-. apply list_elem_of_singleton in Hfound as ->. done.
Qed.

(** * Further properties *)

(** ** Language validation *)

(** X1. A validated language is the non-empty tag that was given or, when
    none was given, the active language; it is one of [LANGUAGES]; and
    validating it again, as the nested calls do, returns it. *)
Theorem validated_language_origin (app : App) (lang : option string) (tag : string) :
  get_validated_language app lang = Ok tag ->
  ((lang = Some tag /\ tag <> "")
   \/ (lang_given lang = false /\ get_language app = Some tag))
  /\ tag ∈ LANGUAGES app
  /\ get_validated_language app (Some tag) = Ok tag.
Proof.
  intros Hlang. split; [|split].
  - unfold get_validated_language in Hlang.
    destruct (lang_given lang) eqn:Hgiven.
    + left. destruct (validate_language_Ok _ _ _ Hlang) as [-> _].
      split; [done|]. cbn in Hgiven. by apply negb_true_iff, String.eqb_neq in Hgiven.
    + right. by destruct (validate_language_Ok _ _ _ Hlang) as [-> _].
  - unfold get_validated_language in Hlang.
    by destruct (validate_language_Ok _ _ _ Hlang) as [_ ?].
  - by eapply get_validated_language_again.
Qed.

Lemma validated_language_origin_witness :
  get_validated_language sample None = Ok "en"
  /\ get_language sample = Some "en"
  /\ get_validated_language sample (Some "en") = Ok "en".
Proof.
  split; [reflexivity|].
  destruct (validated_language_origin sample None "en" eq_refl)
    as ([[? _]|[_ Hactive]] & _ & Hagain); [done|].
  by split.
Defined.

(** ** Reverse relation names *)

Lemma append_assoc (a b c : string) : (a +:+ b) +:+ c = a +:+ b +:+ c.
Proof.
  induction a as [|ch a IH]; [done|].
  change (String ch ((a +:+ b) +:+ c) = String ch (a +:+ b +:+ c)).
  by rewrite IH.
Qed.

Lemma join_snoc (parts : list string) (last : string) :
  parts <> [] -> join (parts ++ [last]) = join parts +:+ LOOKUP_SEP +:+ last.
Proof.
  induction parts as [|part rest IH]; [done|]. intros _.
  destruct rest as [|next rest]; [done|].
  change (join ((part :: next :: rest) ++ [last]))
    with (part +:+ LOOKUP_SEP +:+ join ((next :: rest) ++ [last])).
  rewrite IH by done.
  change (join (part :: next :: rest))
    with (part +:+ LOOKUP_SEP +:+ join (next :: rest)).
  by rewrite !append_assoc.
Qed.

Lemma related_query_name_of_chain (app : App) (branch : list string) :
  forall model root,
    related_query_name_of app model root branch
    = (names ← remote_names app model (root :: branch); Ok (join (reverse names))).
Proof.
  induction branch as [|branch_root branch_rest IH]; intros model root.
  - cbn. destruct (get_field app model root) as [f|]; [|done]. cbn.
    by destruct (f_remote f) as [[name branch_model]|].
  - cbn [related_query_name_of].
    change (remote_names app model (root :: branch_root :: branch_rest))
      with (f ← get_field app model root;
            match f_remote f with
            | None => Err AttributeError
            | Some (related_query_name, branch_model) =>
                names ← remote_names app branch_model (branch_root :: branch_rest);
                Ok (related_query_name :: names)
            end).
    destruct (get_field app model root) as [f|]; [|done].
    cbn -[remote_names related_query_name_of join reverse].
    destruct (f_remote f) as [[name branch_model]|]; [|done].
    rewrite IH.
    destruct (remote_names app branch_model (branch_root :: branch_rest))
      as [names|] eqn:Hnames; [|done].
    cbn -[remote_names related_query_name_of join reverse].
    rewrite reverse_cons, join_snoc; [done|].
    destruct names as [|first more].
    + cbn in Hnames. destruct (get_field app branch_model branch_root); [|done].
      cbn in Hnames. destruct (f_remote _) as [[? ?]|]; [|done].
      by destruct (remote_names app _ branch_rest).
    + rewrite reverse_cons. by destruct (reverse more).
Qed.

(** X2. The related query name of a relation is the chain of the reverse
    names of its segments, taken in reverse order and joined by the
    separator; it fails exactly as the walk along the segments fails. *)
Theorem related_query_name_is_reversed_chain (app : App) (model : Model)
    (relation : string) :
  get_related_query_name app model relation
  = (names ← remote_names app model (split relation);
     Ok (join (reverse names))).
Proof.
  destruct (split_cons relation) as (root & branch & Hsplit).
  rewrite (get_related_query_name_parts _ _ _ _ _ Hsplit), Hsplit.
  apply related_query_name_of_chain.
Qed.



(** ** The translation query *)

(** X4. For a translatable instance that is stored and no relation,
    [get_translations] returns a queryset that selects, from any table,
    exactly the rows that carry the content type of the instance's class,
    the text of its id and the validated language, where the database
    matches an object id with the id by its text only. *)
Theorem fetch_of_instance (app : App) (obj : Instance) (lang : option string)
    (tag name : string) :
  joins_stored_owner app (inst_model obj) (inst_id obj) ->
  joins_by_text_only app (inst_model obj) (inst_id obj) ->
  is_Translatable app (inst_model obj) = true ->
  get_validated_language app lang = Ok tag ->
  get_related_query_name app (inst_model obj) "translations" = Ok name ->
  exists queryset,
    get_translations app (ModelInstance obj) [] lang = Ok queryset
    /\ forall table,
         fetch app queryset table
         = rows_of app table (inst_model obj) (inst_id obj) tag.
Proof.
  intros Hjoins Honly Htr Hlang Hname. eexists. split.
  - by apply get_translations_own with (inst_model obj).
  - intros table. unfold fetch, rows_of. apply filter_ext. intros r.
    by apply selects_own.
Qed.

Lemma fetch_of_instance_witness :
  let table := [row 7 "1" "name" "de" "Europa"; row 7 "1" "name" "en" "Europe";
                row 7 "2" "name" "de" "Asien"; row 8 "1" "name" "de" "Deutschland"] in
  exists queryset,
    get_translations sample (ModelInstance europe) [] (Some "de") = Ok queryset
    /\ fetch sample queryset table = [row 7 "1" "name" "de" "Europa"].
Proof.
  intros table.
  destruct (fetch_of_instance sample europe (Some "de") "de" "sample_continent"
              (sample_joins_stored_owner Continent ltac:(apply list_elem_of_here))
              (sample_joins_by_text_only Continent ltac:(apply list_elem_of_here))
              eq_refl eq_refl eq_refl) as (queryset & Hquery & Hfetch).
  exists queryset. split; [exact Hquery|]. by rewrite Hfetch.
Defined.

Lemma relation_queries_names (app : App) (model : Model)
    (filter_string filter_string' : string) (value value' : ContextValue)
    (relations : list string) :
  match relation_queries app model filter_string value relations,
        relation_queries app model filter_string' value' relations with
  | Ok queries, Ok queries' =>
      q_related_query_name <$> queries = q_related_query_name <$> queries'
      /\ Forall (fun q => q_value q = value) queries
      /\ Forall (fun q => q_value q = value') queries'
  | Err e, Err e' => e = e'
  | _, _ => False
  end.
Proof.
  induction relations as [|relation rest IH]; [done|].
  cbn -[get_related_query_name].
  destruct (get_related_query_name app model _) as [name|]; [|done].
  cbn -[get_related_query_name].
  destruct (relation_queries app model filter_string value rest) as [queries|];
    destruct (relation_queries app model filter_string' value' rest) as [queries'|];
    try done.
  cbn. destruct IH as (Hnames & Hvalues & Hvalues').
  split; [by rewrite Hnames|]. split; by constructor.
Qed.

Lemma clauses_agree (app : App) (id : Z) (queries queries' : list Q)
    (row : Translation) :
  q_related_query_name <$> queries = q_related_query_name <$> queries' ->
  Forall (fun q => q_value q = IdExact id) queries ->
  Forall (fun q => q_value q = IdIn [id]) queries' ->
  existsb (fun q => q_holds app q row) queries
  = existsb (fun q => q_holds app q row) queries'.
Proof.
  revert queries'. induction queries as [|q rest IH]; intros [|q' rest'] Hnames;
    try done.
  rewrite !Forall_cons. intros [Hq Hrest] [Hq' Hrest']. injection Hnames as Hname Hnames.
  cbn [existsb]. rewrite (IH rest') by done. f_equal.
  unfold q_holds. rewrite Hq, Hq', Hname. cbn. by rewrite orb_false_r.
Qed.

(** X5. Fetching for an instance and fetching for the list that holds just
    that instance agree, whatever the relations: both raise the same
    exception, or both return querysets that select the same rows. *)
Theorem fetch_singular_plural (app : App) (obj : Instance) (relations : list string)
    (lang : option string) :
  match get_translations app (ModelInstance obj) relations lang,
        get_translations app (PyList [obj]) relations lang with
  | Ok one, Ok many => forall row, selects app one row = selects app many row
  | Err e, Err e' => e = e'
  | _, _ => False
  end.
Proof.
  unfold get_translations.
  destruct (get_validated_language app lang) as [tag|]; [|done].
  cbn -[get_related_query_name].
  pose proof (relation_queries_names app (inst_model obj) "id" "id__in"
                (IdExact (inst_id obj)) (IdIn [inst_id obj]) relations) as Hrel.
  destruct (is_Translatable app (inst_model obj)).
  - destruct (get_related_query_name app (inst_model obj) "translations") as [name|];
      [|done].
    cbn -[get_related_query_name].
    destruct (relation_queries app (inst_model obj) "id" _ relations) as [queries|];
      destruct (relation_queries app (inst_model obj) "id__in" _ relations)
        as [queries'|]; try done.
    cbn. destruct Hrel as (Hnames & Hvalues & Hvalues'). intros r. f_equal.
    rewrite orb_false_r. f_equal. by apply clauses_agree with (inst_id obj).
  - cbn -[get_related_query_name].
    destruct (relation_queries app (inst_model obj) "id" _ relations) as [queries|];
      destruct (relation_queries app (inst_model obj) "id__in" _ relations)
        as [queries'|]; try done.
    destruct Hrel as (Hnames & Hvalues & Hvalues').
    cbn. destruct queries as [|q rest]; destruct queries' as [|q' rest']; try done.
    cbn. intros r. f_equal.
    exact (clauses_agree app (inst_id obj) (q :: rest) (q' :: rest') r
             Hnames Hvalues Hvalues').
Qed.

(** ** The relation hierarchy *)

Lemma relations_hierarchy_from_rejects (relations : list string) :
  forall hierarchy,
    (exists relation, relation ∈ relations /\ "" ∈ split relation) ->
    relations_hierarchy_from hierarchy relations = Err ValueError.
Proof.
  induction relations as [|first rest IH]; intros hierarchy (relation & Hin & Hempty).
  - by apply elem_of_nil in Hin.
  - cbn [relations_hierarchy_from]. rewrite has_empty_segment.
    case_bool_decide as Hfirst; [done|].
    apply elem_of_cons in Hin as [->|Hin]; [done|]. apply IH. by exists relation.
Qed.

(** X6. [get_relations_hierarchy] raises [ValueError] exactly when one of
    the relations has an empty segment, and returns a hierarchy otherwise;
    the empty relation and a relation that starts with the separator are
    rejected wherever they stand in the list. *)
Theorem relations_hierarchy_rejects (relations : list string) :
  (get_relations_hierarchy relations = Err ValueError
   <-> exists relation, relation ∈ relations /\ "" ∈ split relation)
  /\ ((forall relation, relation ∈ relations -> "" ∉ split relation)
      <-> exists hierarchy, get_relations_hierarchy relations = Ok hierarchy)
  /\ ("" ∈ relations -> get_relations_hierarchy relations = Err ValueError)
  /\ (forall relation,
         LOOKUP_SEP +:+ relation ∈ relations ->
         get_relations_hierarchy relations = Err ValueError).
Proof.
  assert ((exists relation, relation ∈ relations /\ "" ∈ split relation) ->
          get_relations_hierarchy relations = Err ValueError) as Hrejects
    by apply relations_hierarchy_from_rejects.
  assert ((forall relation, relation ∈ relations -> "" ∉ split relation) ->
          get_relations_hierarchy relations = Ok (grouped_hierarchy relations))
    as Haccepts by apply (relations_hierarchy_from_grouped relations []).
  split; [split|split; [split|split]].
  - intros Herr.
    destruct (decide (Exists (fun relation => "" ∈ split relation) relations))
      as [Hsome|Hnone].
    + apply Exists_exists in Hsome as (relation & Hin & Hempty). by exists relation.
    + rewrite Haccepts in Herr; [done|]. intros relation Hin Hempty.
      apply Hnone, Exists_exists. by exists relation.
  - exact Hrejects.
  - intros Hall. eexists. by apply Haccepts.
  - intros [hierarchy Hok] relation Hin Hempty.
    rewrite Hrejects in Hok; [done|]. by exists relation.
  - intros Hin. apply Hrejects. exists "". split; [done|]. apply list_elem_of_here.
  - intros relation Hin. apply Hrejects. exists (LOOKUP_SEP +:+ relation).
    split; [done|]. apply list_elem_of_here.
Qed.

Lemma relations_hierarchy_rejects_witness :
  get_relations_hierarchy ["countries"; "__states"] = Err ValueError
  /\ exists hierarchy,
       get_relations_hierarchy ["countries__states"; "countries"] = Ok hierarchy.
Proof.
  split.
  - destruct (relations_hierarchy_rejects ["countries"; "__states"])
      as (_ & _ & _ & Hleading).
    apply (Hleading "states"). apply list_elem_of_further, list_elem_of_here.
  - destruct (relations_hierarchy_rejects ["countries__states"; "countries"])
      as (_ & [Hreturns _] & _).
    apply Hreturns. intros relation Hin.
    repeat (apply elem_of_cons in Hin as [->|Hin]); [..|by apply elem_of_nil in Hin];
      by apply (bool_decide_unpack _).
Defined.

(** X7. The hierarchy loses and invents nothing: its keys are distinct and
    are the first segments of the relations, and every nested relation,
    put back behind its key and the separator, is one of the relations
    given. *)
Theorem relations_hierarchy_recombines (relations : list string)
    (hierarchy : list (string * list string)) :
  get_relations_hierarchy relations = Ok hierarchy ->
  NoDup hierarchy.*1
  /\ (forall root, root ∈ hierarchy.*1 <-> root ∈ first_segment <$> relations)
  /\ (forall root nests nest,
         (root, nests) ∈ hierarchy -> nest ∈ nests ->
         root +:+ LOOKUP_SEP +:+ nest ∈ relations).
Proof.
  intros Hok.
  pose proof (relations_hierarchy_from_segments _ _ _ Hok) as Hsegments.
  pose proof (relations_hierarchy_from_grouped relations [] Hsegments) as Hgrouped.
  unfold get_relations_hierarchy in Hok.
  change (grouped_hierarchy []) with (@nil (string * list string)) in Hgrouped.
  rewrite Hgrouped in Hok. injection Hok as <-. cbn [app].
  assert ((grouped_hierarchy relations).*1
          = first_occurrences (first_segment <$> relations)) as Hkeys.
  { unfold grouped_hierarchy. rewrite <- list_fmap_compose. apply list_fmap_id. }
  split; [|split].
  - rewrite Hkeys. apply NoDup_first_occurrences.
  - intros root. rewrite Hkeys. apply first_occurrences_elem.
  - intros root nests nest Hentry Hnest.
    apply list_elem_of_fmap in Hentry as (key & [= -> ->] & _).
    apply list_elem_of_omap in Hnest as (path & Hpath & Hnest).
    destruct (String.eqb (first_segment path) key
              && (1 <? length (split path))%nat) eqn:Hcond; [|done].
    injection Hnest as <-. apply andb_true_iff in Hcond as [Hfirst Hlong].
    apply String.eqb_eq in Hfirst as <-. apply Nat.ltb_lt in Hlong.
    assert (first_segment path +:+ LOOKUP_SEP +:+ remaining_segments path = path)
      as ->; [|done].
    rewrite <- (join_split path) at 3. unfold first_segment, remaining_segments.
    destruct (split path) as [|root [|next branch]]; cbn in Hlong; try lia. done.
Qed.

Lemma relations_hierarchy_recombines_witness :
  let relations := ["countries__states__cities"; "countries__states"; "timezone"] in
  let hierarchy := [("countries", ["states__cities"; "states"]); ("timezone", [])] in
  get_relations_hierarchy relations = Ok hierarchy
  /\ NoDup hierarchy.*1
  /\ "countries" +:+ LOOKUP_SEP +:+ "states__cities" ∈ relations.
Proof.
  intros relations hierarchy. split; [reflexivity|].
  destruct (relations_hierarchy_recombines relations hierarchy eq_refl)
    as (Hkeys & _ & Hnested).
  split; [exact Hkeys|].
  apply (Hnested "countries" ["states__cities"; "states"] "states__cities");
    apply list_elem_of_here.
Defined.

(** ** The overlay, call by call *)

(** [translate] is its two halves in sequence, the second only when the
    first raised nothing. *)
Lemma translate_rec_halves (app : App) (fuel : nat) (table : list Translation)
    (relations : list string) (lang : option string) (given : TranslationsArg)
    (context : Context) :
  translate_rec app (S fuel) table relations lang given context
  = match get_validated_language app lang with
    | Err e => (context, Err e)
    | Ok tag =>
        match overlay_context context with
        | Err e => (context, Err e)
        | Ok (model, _) =>
            match given_or_fetched app context relations tag given with
            | Err e => (context, Err e)
            | Ok used =>
                match translate_itself app model (translations_dict app table used)
                        context with
                | (overlaid, Ok _) =>
                    translate_relations app fuel table relations tag
                      (translations_dict app table used) overlaid
                | (overlaid, Err e) => (overlaid, Err e)
                end
            end
        end
    end.
Proof.
  cbn [translate_rec]. unfold mut_bind at 1. unfold lift at 1.
  destruct (get_validated_language app lang) as [tag|]; [|done].
  unfold mut_bind at 1. unfold lift at 1.
  destruct (overlay_context context) as [[model is_plural]|]; [|done].
  unfold mut_bind at 1. unfold lift at 1.
  destruct (given_or_fetched app context relations tag given) as [used|]; [|done].
  unfold mut_bind at 1. fold (translate_itself app model (translations_dict app table used)).
  by destruct (translate_itself app model (translations_dict app table used) context)
    as [overlaid [[]|e]].
Qed.

Lemma translate_relations_none (app : App) (fuel : nat) (table : list Translation)
    (tag : string) (translations : gmap Z (gmap string (list Translation)))
    (context : Context) :
  translate_relations app fuel table [] tag translations context = (context, Ok tt).
Proof. reflexivity. Qed.

Lemma translate_without_relations (app : App) (table : list Translation)
    (lang : option string) (given : TranslationsArg) (context : Context) :
  translate app table context [] lang given
  = match get_validated_language app lang with
    | Err e => (context, Err e)
    | Ok tag =>
        match overlay_context context with
        | Err e => (context, Err e)
        | Ok (model, _) =>
            match given_or_fetched app context [] tag given with
            | Err e => (context, Err e)
            | Ok used =>
                match translate_itself app model (translations_dict app table used)
                        context with
                | (overlaid, Ok _) => (overlaid, Ok tt)
                | (overlaid, Err e) => (overlaid, Err e)
                end
            end
        end
    end.
Proof. unfold translate. by rewrite translate_rec_halves. Qed.

Lemma for_each_Ok {A} (body : Mut A unit) (xs : list A) :
  forall xs',
    for_each body xs = (xs', Ok tt) ->
    forall i x, xs !! i = Some x ->
                exists x', xs' !! i = Some x' /\ body x = (x', Ok tt).
Proof.
  induction xs as [|y rest IH]; intros xs' Hrun i x Hx.
  - by rewrite lookup_nil in Hx.
  - cbn [for_each] in Hrun. destruct (body y) as [y' [[]|e]] eqn:Hy; [|done].
    destruct (for_each body rest) as [rest' [[]|e]] eqn:Hrest; [|done].
    injection Hrun as <-. destruct i as [|i]; cbn in *.
    + injection Hx as <-. by exists y'.
    + by eapply IH.
Qed.

(** X8. Plural and singular overlay agree. When [translate] returns on a
    list whose instances all have the class of the first one, with the
    translations handed in and no relation, every instance of the list ends
    up exactly as [translate] leaves it when called on that instance
    alone. *)
Theorem overlay_plural_singular (app : App) (table : list Translation)
    (items items' : list Instance) (lang : option string) (given : TranslationsArg) :
  given <> ArgNone ->
  (forall first obj, head items = Some first -> obj ∈ items ->
                     inst_model obj = inst_model first) ->
  translate app table (PyList items) [] lang given = (PyList items', Ok tt) ->
  forall i obj,
    items !! i = Some obj ->
    exists obj',
      items' !! i = Some obj'
      /\ translate app table (ModelInstance obj) [] lang given
         = (ModelInstance obj', Ok tt).
Proof.
  intros Hgiven Hsame. rewrite translate_without_relations.
  destruct (get_validated_language app lang) as [tag|] eqn:Hlang; [|done].
  destruct items as [|first rest]; [done|]. cbn [overlay_context].
  assert (forall context, given_or_fetched app context [] tag given = Ok given)
    as Hused by (intros context; by destruct given).
  rewrite Hused. unfold translate_itself.
  intros Hrun i obj Hobj.
  assert (inst_model obj = inst_model first) as Hmodel
    by (apply Hsame; [done|by eapply list_elem_of_lookup_2]).
  rewrite translate_without_relations, Hlang. cbn [overlay_context].
  rewrite Hused, Hmodel. unfold translate_itself.
  destruct (is_Translatable app (inst_model first)).
  - unfold mut_bind, lift in *.
    destruct (get_translatable_fields app (inst_model first)) as [fields|]; [|done].
    cbn [each_instance] in *.
    destruct (for_each _ (first :: rest)) as [overlaid [[]|e]] eqn:Heach; [|done].
    injection Hrun as <-.
    destruct (for_each_Ok _ _ _ Heach i obj Hobj) as (obj' & Hobj' & ->).
    by exists obj'.
  - injection Hrun as <-. by exists obj.
Qed.

Lemma overlay_plural_singular_witness :
  let given :=
    ArgDict {[ 7%Z := {[ "1" := [row 7 "1" "name" "de" "Europa"];
                         "2" := [row 7 "2" "name" "de" "Asien"] ]} ]} in
  let asia := instance_of Continent 2 [("name", VStr "Asia")] in
  translate sample [] (PyList [europe; asia]) [] (Some "de") given
  = (PyList [setattr europe "name" (VStr "Europa");
             setattr asia "name" (VStr "Asien")], Ok tt)
  /\ translate sample [] (ModelInstance asia) [] (Some "de") given
     = (ModelInstance (setattr asia "name" (VStr "Asien")), Ok tt).
Proof.
  intros given asia.
  assert (translate sample [] (PyList [europe; asia]) [] (Some "de") given
          = (PyList [setattr europe "name" (VStr "Europa");
                     setattr asia "name" (VStr "Asien")], Ok tt)) as Hlist
    by by vm_compute.
  split; [exact Hlist|].
  destruct (overlay_plural_singular sample [] [europe; asia] _ (Some "de") given
              ltac:(discriminate)
              ltac:(intros first obj [= <-] Hin;
                    repeat (apply elem_of_cons in Hin as [->|Hin]; [reflexivity|]);
                    by apply elem_of_nil in Hin)
              Hlist 1%nat asia eq_refl) as (obj' & [= <-] & Hone).
  exact Hone.
Defined.

Lemma instance_eq (obj obj' : Instance) :
  inst_model obj = inst_model obj' ->
  inst_id obj = inst_id obj' ->
  (forall name, inst_attrs obj !! name = inst_attrs obj' !! name) ->
  obj = obj'.
Proof.
  destruct obj, obj'. cbn. intros -> -> Hattrs. f_equal. by apply map_eq.
Qed.

Lemma hasattr_step (obj : Instance) (cond : bool) (name value other : string) :
  (cond = true -> hasattr obj name = true) ->
  hasattr (if cond then setattr obj name (VStr value) else obj) other
  = hasattr obj other.
Proof.
  intros Hcond. destruct cond; [|done]. specialize (Hcond eq_refl).
  unfold hasattr in *. cbn. apply bool_decide_eq_true_1 in Hcond.
  apply bool_decide_ext. destruct (decide (name = other)) as [<-|Hne].
  - rewrite lookup_insert_eq. split; [done|by eexists].
  - by rewrite lookup_insert_ne.
Qed.

Lemma apply_translations_hasattr (app : App) (model : Model)
    (translatable_fields : list Field) (rows : list Translation) :
  forall obj obj' r name,
    apply_translations app model translatable_fields rows obj = (obj', r) ->
    hasattr obj' name = hasattr obj name.
Proof.
  induction rows as [|row rest IH]; intros obj obj' r name.
  - by intros [= <- _].
  - cbn [apply_translations].
    destruct (get_field app model (field row)) as [f|]; [|by intros [= <- _]].
    intros Hrest. rewrite (IH _ _ _ _ Hrest). apply hasattr_step.
    intros Hcond. apply andb_true_iff in Hcond as [Hcond _].
    by apply andb_true_iff in Hcond as [_ ?].
Qed.

Lemma apply_translations_fields (app : App) (model : Model)
    (translatable_fields : list Field) (rows : list Translation) :
  forall obj obj',
    apply_translations app model translatable_fields rows obj = (obj', Ok tt) ->
    forall row, row ∈ rows -> exists f, get_field app model (field row) = Ok f.
Proof.
  induction rows as [|first rest IH]; intros obj obj' Hrun row Hrow.
  - by apply elem_of_nil in Hrow.
  - cbn [apply_translations] in Hrun.
    destruct (get_field app model (field first)) as [f|] eqn:Hf; [|done].
    apply elem_of_cons in Hrow as [->|Hrow]; [by exists f|by eapply IH].
Qed.

(** Two instances with the same attribute names, which agree on every
    attribute that no row is applied to, come out of the loop equal. *)
Lemma apply_translations_agree (app : App) (model : Model)
    (translatable_fields : list Field) (rows : list Translation) :
  (forall row, row ∈ rows -> exists f, get_field app model (field row) = Ok f) ->
  forall obj obj',
    inst_model obj = inst_model obj' ->
    inst_id obj = inst_id obj' ->
    (forall name, hasattr obj name = hasattr obj' name) ->
    (forall name,
        (forall row, row ∈ rows -> field row = name ->
                     applies app model translatable_fields obj row = false) ->
        inst_attrs obj !! name = inst_attrs obj' !! name) ->
    apply_translations app model translatable_fields rows obj
    = apply_translations app model translatable_fields rows obj'.
Proof.
  induction rows as [|first rest IH]; intros Hfields obj obj' Hmodel Hid Hhas Hattrs.
  - cbn. f_equal. apply instance_eq; try done. intros name. apply Hattrs.
    intros row Hrow. by apply elem_of_nil in Hrow.
  - cbn [apply_translations].
    destruct (Hfields first (list_elem_of_here _ _)) as [f Hf]. rewrite Hf.
    rewrite <- (Hhas (field first)).
    set (cond := bool_decide (f ∈ translatable_fields) && hasattr obj (field first)
                 && nonempty (text first)).
    assert (cond = true -> hasattr obj (field first) = true) as Hcond.
    { intros Hc. apply andb_true_iff in Hc as [Hc _].
      by apply andb_true_iff in Hc as [_ ?]. }
    assert (cond = true -> hasattr obj' (field first) = true) as Hcond'
      by (rewrite <- Hhas; exact Hcond).
    apply IH.
    + intros row Hrow. by apply Hfields, list_elem_of_further.
    + by destruct cond.
    + by destruct cond.
    + intros name. by rewrite !hasattr_step.
    + intros name Hnone.
      rewrite !apply_translation_attrs.
      destruct (cond && bool_decide (field first = name)) eqn:Hc; [done|].
      apply Hattrs. intros row Hrow Hname.
      apply elem_of_cons in Hrow as [->|Hrow].
      * unfold applies. rewrite Hf. fold cond. rewrite Hname in Hc.
        rewrite bool_decide_eq_true_2 in Hc by done. by rewrite andb_true_r in Hc.
      * specialize (Hnone row Hrow Hname). unfold applies in *.
        destruct (get_field app model (field row)); [|done].
        by rewrite hasattr_step in Hnone.
Qed.

Lemma apply_translations_twice (app : App) (model : Model)
    (translatable_fields : list Field) (rows : list Translation)
    (obj obj' : Instance) :
  apply_translations app model translatable_fields rows obj = (obj', Ok tt) ->
  apply_translations app model translatable_fields rows obj' = (obj', Ok tt).
Proof.
  intros Hrun.
  destruct (apply_translations_same _ _ _ _ _ _ _ Hrun) as [Hmodel Hid].
  transitivity (apply_translations app model translatable_fields rows obj);
    [symmetry|exact Hrun].
  apply apply_translations_agree; try done.
  - by eapply apply_translations_fields.
  - intros name. symmetry. by eapply apply_translations_hasattr.
  - intros name Hnone.
    destruct (apply_translations_frame _ _ _ _ name _ _ _ Hrun)
      as [Hsame|(f & row & Hrow & Hname & Hf & Htf & Hhas & Htext & _)]; [done|].
    specialize (Hnone row Hrow Hname). unfold applies in Hnone.
    rewrite Hname, Hf, Hhas, Htext, bool_decide_eq_true_2 in Hnone by done. done.
Qed.

Lemma get_translations_same_context (app : App) (context context' : Context)
    (relations : list string) (lang : option string) :
  fetch_context context = fetch_context context' ->
  get_translations app context relations lang
  = get_translations app context' relations lang.
Proof. intros Hsame. unfold get_translations. by rewrite Hsame. Qed.

(** X9. The overlay is idempotent. When [translate] returns on an instance,
    with no relation, calling it again on the overlaid instance with the
    same language and the same translations (given or fetched) returns and
    leaves the instance as it is. *)
Theorem overlay_idempotent (app : App) (table : list Translation)
    (obj obj' : Instance) (lang : option string) (given : TranslationsArg) :
  translate app table (ModelInstance obj) [] lang given
  = (ModelInstance obj', Ok tt) ->
  translate app table (ModelInstance obj') [] lang given
  = (ModelInstance obj', Ok tt).
Proof.
  rewrite !translate_without_relations.
  destruct (get_validated_language app lang) as [tag|]; [|done].
  cbn [overlay_context].
  assert (inst_model obj' = inst_model obj /\ inst_id obj' = inst_id obj ->
          given_or_fetched app (ModelInstance obj') [] tag given
          = given_or_fetched app (ModelInstance obj) [] tag given) as Hused.
  { intros [Hmodel Hid]. destruct given; try done. cbn.
    rewrite (get_translations_same_context app (ModelInstance obj')
               (ModelInstance obj)); [done|]. cbn. by rewrite Hmodel, Hid. }
  destruct (given_or_fetched app (ModelInstance obj) [] tag given) as [used|] eqn:Hgiven;
    [|done].
  unfold translate_itself.
  destruct (is_Translatable app (inst_model obj)) eqn:Htr.
  - unfold mut_bind, lift.
    destruct (get_translatable_fields app (inst_model obj)) as [fields|] eqn:Hfields;
      [|done].
    cbn [each_instance].
    destruct (translate_obj app (inst_model obj) fields _ obj) as [after [[]|e]]
      eqn:Hobj; [|done].
    intros [= ->].
    destruct (translate_obj_frame _ _ _ _ _ _ _ Hobj) as (Hmodel & Hid & _).
    rewrite Hused, Hmodel, Htr, Hfields by done. cbn [each_instance].
    assert (translate_obj app (inst_model obj) fields
              (translations_dict app table used) obj' = (obj', Ok tt)) as ->; [|done].
    unfold translate_obj in *. rewrite Hid.
    destruct (translations_dict app table used !! content_type_id app (inst_model obj)
              ≫= (.!! str (inst_id obj))) as [rows|]; [|done].
    by eapply apply_translations_twice.
  - intros [= ->]. by rewrite Hused, Htr.
Qed.

Lemma overlay_idempotent_witness :
  let table := [row 7 "1" "name" "de" "Europa alt"; row 7 "1" "name" "de" "Europa";
                row 7 "1" "denonym" "de" ""] in
  let once := setattr europe "name" (VStr "Europa") in
  translate sample table (ModelInstance europe) [] (Some "de") ArgNone
  = (ModelInstance once, Ok tt)
  /\ translate sample table (ModelInstance once) [] (Some "de") ArgNone
     = (ModelInstance once, Ok tt).
Proof.
  intros table once.
  assert (translate sample table (ModelInstance europe) [] (Some "de") ArgNone
          = (ModelInstance once, Ok tt)) as Hfirst by by vm_compute.
  split; [exact Hfirst|].
  exact (overlay_idempotent sample table europe once (Some "de") ArgNone Hfirst).
Defined.



(** X11. A malformed relation is found late. With the translations handed
    in, [translate] overlays the instances of the context before it parses
    the relations: when a relation has an empty segment the call raises
    [ValueError], and the context is left as the call with no relation
    leaves it, fields overwritten. *)
Theorem overlay_then_invalid_relation (app : App) (table : list Translation)
    (context overlaid : Context) (relations : list string) (lang : option string)
    (given : TranslationsArg) :
  given <> ArgNone ->
  (exists relation, relation ∈ relations /\ "" ∈ split relation) ->
  translate app table context [] lang given = (overlaid, Ok tt) ->
  translate app table context relations lang given = (overlaid, Err ValueError).
Proof.
  intros Hgiven Hbad. rewrite translate_without_relations. unfold translate.
  rewrite translate_rec_halves.
  destruct (get_validated_language app lang) as [tag|]; [|done].
  destruct (overlay_context context) as [[model is_plural]|]; [|done].
  assert (forall rels, given_or_fetched app context rels tag given = Ok given) as Hused
    by (intros rels; by destruct given).
  rewrite !Hused.
  destruct (translate_itself app model (translations_dict app table given) context)
    as [after [[]|e]]; [|done].
  intros [= ->]. unfold translate_relations, mut_bind, lift, get_relations_hierarchy.
  by rewrite (relations_hierarchy_from_rejects relations [] Hbad).
Qed.

Lemma overlay_then_invalid_relation_witness :
  let given := ArgDict {[ 7%Z := {[ "1" := [row 7 "1" "name" "de" "Europa"] ]} ]} in
  translate sample [] (ModelInstance europe) ["countries____states"] (Some "de") given
  = (ModelInstance (setattr europe "name" (VStr "Europa")), Err ValueError).
Proof.
  intros given.
  apply (overlay_then_invalid_relation sample [] (ModelInstance europe)).
  - discriminate.
  - exists "countries____states". split; [apply list_elem_of_here|].
    by apply (bool_decide_eq_true_1 ("" ∈ split "countries____states")).
  - by vm_compute.
Defined.

Lemma translate_rec_validated (app : App) (fuel : nat) (table : list Translation)
    (relations : list string) (lang : option string) (tag : string)
    (given : TranslationsArg) (context : Context) :
  get_validated_language app lang = Ok tag ->
  translate_rec app fuel table relations (Some tag) given context
  = translate_rec app fuel table relations lang given context.
Proof.
  intros Hlang. destruct fuel as [|fuel]; [done|].
  by rewrite !translate_rec_halves, Hlang, (get_validated_language_again _ _ _ Hlang).
Qed.

(** X12. Overlay through a relation. With the translations handed in and a
    relation of one segment, [translate] on an instance first overlays the
    instance itself and then looks at the attribute of that name: [None]
    (or no attribute) is passed over; a related instance or manager is
    overlaid by the call with no relation and the same translations, and an
    exception of that call is the exception raised; a text makes the nested
    call raise the invalid-context exception. *)
Theorem overlay_through_relation (app : App) (table : list Translation)
    (obj overlaid : Instance) (key : string) (lang : option string)
    (given : TranslationsArg) :
  given <> ArgNone ->
  split key = [key] ->
  key <> "" ->
  translate app table (ModelInstance obj) [] lang given
  = (ModelInstance overlaid, Ok tt) ->
  translate app table (ModelInstance obj) [key] lang given
  = match getattr overlaid key with
    | VNone => (ModelInstance overlaid, Ok tt)
    | VStr _ => (ModelInstance overlaid, Err invalid_context)
    | relation_value =>
        let '(related, r) :=
          translate app table (related_context relation_value) [] lang
            (ArgDict (translations_dict app table given)) in
        (ModelInstance (setattr overlaid key (related_value relation_value related)), r)
    end.
Proof.
  intros Hgiven Hsplit Hkey. rewrite translate_without_relations. unfold translate.
  assert (depth [key] = 1%nat) as -> by (cbn; by rewrite Hsplit).
  rewrite translate_rec_halves.
  destruct (get_validated_language app lang) as [tag|] eqn:Hlang; [|done].
  cbn [overlay_context].
  assert (forall rels, given_or_fetched app (ModelInstance obj) rels tag given = Ok given)
    as Hused by (intros rels; by destruct given).
  rewrite !Hused.
  destruct (translate_itself app (inst_model obj) (translations_dict app table given)
              (ModelInstance obj)) as [after [[]|e]]; [|done].
  intros [= ->].
  assert (get_relations_hierarchy [key] = Ok [(key, [])]) as Hdict.
  { unfold get_relations_hierarchy. cbn [relations_hierarchy_from].
    rewrite Hsplit. by destruct key. }
  unfold translate_relations, mut_bind, lift. rewrite Hdict.
  cbn [length Nat.ltb Nat.leb each_instance translate_rel depth foldr].
  destruct (getattr overlaid key) as [|s|related|model prefetched rows] eqn:Hvalue;
    [done| | |].
  - rewrite (translate_rec_validated app 1 table [] lang tag) by done.
    rewrite translate_rec_halves, Hlang. done.
  - rewrite (translate_rec_validated app 1 table [] lang tag) by done.
    by destruct (translate_rec app 1 table [] lang _ _) as [translated [[]|e]].
  - rewrite (translate_rec_validated app 1 table [] lang tag) by done.
    by destruct (translate_rec app 1 table [] lang _ _) as [translated [[]|e]].
Qed.

Lemma overlay_through_relation_witness :
  let given :=
    ArgDict {[ 7%Z := {[ "1" := [row 7 "1" "name" "de" "Europa"] ]};
               8%Z := {[ "1" := [row 8 "1" "name" "de" "Deutschland"] ]} ]} in
  let germany := instance_of Country 1 [("name", VStr "Germany")] in
  let parent := setattr europe "countries" (VManager Country true [germany]) in
  translate sample [] (ModelInstance parent) ["countries"] (Some "de") given
  = (ModelInstance
       (setattr (setattr parent "name" (VStr "Europa")) "countries"
          (VManager Country true [setattr germany "name" (VStr "Deutschland")])),
     Ok tt).
Proof.
  intros given germany parent.
  rewrite (overlay_through_relation sample [] parent
             (setattr parent "name" (VStr "Europa")) "countries" (Some "de") given);
    [by vm_compute|discriminate|reflexivity|discriminate|by vm_compute].
Defined.

(** ** Persisting *)

(** X13. The calls of [update_translations] that touch nothing. With a
    supported language, an empty list returns at once, a context whose
    model is not translatable returns without a transaction, and a context
    that is no queryset, list or instance raises the invalid-context
    exception; with an unsupported language every context, the empty list
    included, raises [ValidationError].  The table is the same afterwards
    in all four cases. *)
Theorem persist_touches_nothing (app : App) (lang : option string)
    (table : list Translation) :
  (forall tag,
      get_validated_language app lang = Ok tag ->
      update_translations app (PyList []) lang table = (table, Ok tt)
      /\ update_translations app Other lang table = (table, Err invalid_context)
      /\ forall context model is_plural,
           persist_context context = Ok (Some (model, is_plural)) ->
           is_Translatable app model = false ->
           update_translations app context lang table = (table, Ok tt))
  /\ (forall e context,
         get_validated_language app lang = Err e ->
         update_translations app context lang table = (table, Err ValidationError)).
Proof.
  split.
  - intros tag Hlang. unfold update_translations, mut_bind, lift, mut_ret.
    rewrite Hlang. split; [done|]. split; [done|].
    intros context model is_plural -> ->. done.
  - intros e context Hlang. unfold update_translations, mut_bind, lift.
    rewrite Hlang. by rewrite (get_validated_language_Err _ _ _ Hlang).
Qed.

Lemma persist_touches_nothing_witness :
  let table := [row 7 "1" "name" "de" "Europa"] in
  update_translations sample (PyList []) (Some "de") table = (table, Ok tt)
  /\ update_translations sample (ModelInstance utc) (Some "de") table = (table, Ok tt)
  /\ update_translations sample (PyList []) (Some "xx") table
     = (table, Err ValidationError).
Proof.
  intros table.
  destruct (persist_touches_nothing sample (Some "de") table) as [Hsupported _].
  destruct (Hsupported "de" eq_refl) as (Hempty & _ & Hplain).
  destruct (persist_touches_nothing sample (Some "xx") table) as [_ Hunsupported].
  split; [exact Hempty|]. split.
  - by apply (Hplain (ModelInstance utc) Timezone false).
  - by apply (Hunsupported ValidationError).
Defined.

Lemma filter_negb_idempotent {A} (p : A -> bool) (l : list A) :
  List.filter (fun x => negb (p x)) (List.filter (fun x => negb (p x)) l)
  = List.filter (fun x => negb (p x)) l.
Proof.
  apply filter_all. intros x Hx.
  by apply list_elem_of_In, filter_In in Hx as [_ ?].
Qed.

Lemma filter_negb_all {A} (p : A -> bool) (l : list A) :
  (forall x, x ∈ l -> p x = true) -> List.filter (fun x => negb (p x)) l = [].
Proof.
  induction l as [|x l IH]; [done|]. intros Hall. cbn.
  rewrite (Hall x) by apply list_elem_of_here. cbn.
  apply IH. intros y Hy. by apply Hall, list_elem_of_further.
Qed.

Lemma filter_kept {A} (p q : A -> bool) (l : list A) :
  (forall x, p x = true -> q x = true) ->
  List.filter p (List.filter q l) = List.filter p l.
Proof.
  intros Hpq. induction l as [|x l IH]; [done|]. cbn.
  destruct (p x) eqn:Hp.
  - rewrite (Hpq x Hp). cbn. by rewrite Hp, IH.
  - destruct (q x); cbn; [by rewrite Hp|done].
Qed.

(** A queryset fetched for a language selects rows of that language only. *)
Lemma selects_language (app : App) (context : Context) (tag : string)
    (queryset : TranslationQuerySet) (row : Translation) :
  get_validated_language app (Some tag) = Ok tag ->
  get_translations app context [] (Some tag) = Ok queryset ->
  selects app queryset row = true ->
  language row = tag.
Proof.
  intros Hlang Hquery Hselected.
  destruct queryset as [validated filter_query|]; [|done].
  apply get_translations_Filtered in Hquery. cbn in Hselected.
  apply andb_true_iff in Hselected as [Hselected _].
  apply bool_decide_eq_true_1 in Hselected. congruence.
Qed.

(** X14. Persisting leaves the other languages alone: whatever the context
    and whatever the store joins, the rows of every language but the one
    of the call are the same rows in the same order after a call that
    returns; none is deleted and none is added. *)
Theorem persist_keeps_other_languages (app : App) (context : Context)
    (lang : option string) (tag : string) (table table' : list Translation) :
  get_validated_language app lang = Ok tag ->
  update_translations app context lang table = (table', Ok tt) ->
  let other row := negb (bool_decide (language row = tag)) in
  List.filter other table' = List.filter other table
  /\ forall row, language row <> tag -> (row ∈ table' <-> row ∈ table).
Proof.
  intros Hlang Hrun other.
  assert (List.filter other table' = List.filter other table) as Hothers.
  { destruct (update_translations_cases app context lang table)
      as [[r Hsame]|(tag' & model & is_plural & fields & Htag & _ & _ & _ & Hrenew)].
    - rewrite Hsame in Hrun. by injection Hrun as <-.
    - rewrite Hlang in Htag. injection Htag as <-.
      rewrite Hrenew in Hrun. unfold atomic in Hrun.
      destruct (renew app context tag fields table) as [after [[]|e]] eqn:Hbody;
        [|done].
      injection Hrun as <-. apply renew_Ok in Hbody as (queryset & Hquery & ->).
      rewrite List.filter_app.
      rewrite (filter_kept other); last first.
      { intros r Hr. apply negb_true_iff. apply negb_true_iff in Hr.
        destruct (selects app queryset r) eqn:Hselected; [|done].
        apply (selects_language app context tag) in Hselected;
          [|by eapply get_validated_language_again|done].
        apply bool_decide_eq_false_1 in Hr. done. }
      match goal with
      | |- _ ++ ?staged = _ => assert (staged = []) as ->; [|by rewrite app_nil_r]
      end.
      apply (filter_negb_all (fun row => bool_decide (language row = tag))).
      intros new Hnew. apply list_elem_of_In, in_flat_map in Hnew as (obj & _ & Hnew).
      apply list_elem_of_In, add_translations_row in Hnew as (f & _ & _ & ->).
      by apply bool_decide_eq_true_2. }
  split; [exact Hothers|]. intros r Hr.
  assert (forall l, r ∈ l <-> r ∈ List.filter other l) as Hin.
  { intros l. rewrite !list_elem_of_In, filter_In. unfold other.
    rewrite bool_decide_eq_false_2 by done. cbn. tauto. }
  by rewrite (Hin table'), (Hin table), Hothers.
Qed.

Lemma persist_keeps_other_languages_witness :
  let table := [row 7 "1" "name" "de" "Alt"; row 7 "1" "name" "en" "Europe";
                row 7 "2" "name" "fr" "Asie"] in
  let stored := update_translations sample (ModelInstance europa) (Some "de") table in
  stored.2 = Ok tt
  /\ (row 7 "1" "name" "en" "Europe" ∈ stored.1)
  /\ (row 7 "2" "name" "fr" "Asie" ∈ stored.1).
Proof.
  intros table stored. split; [reflexivity|].
  destruct (persist_keeps_other_languages sample (ModelInstance europa) (Some "de") "de"
              table stored.1 eq_refl eq_refl) as [_ Hrows].
  split.
  - apply Hrows; [discriminate|]. apply list_elem_of_further, list_elem_of_here.
  - apply Hrows; [discriminate|]. do 2 apply list_elem_of_further. apply list_elem_of_here.
Defined.

(** The transaction body reads the table only through the rows its query
    does not select. *)
Lemma renew_same_others (app : App) (context : Context) (tag : string)
    (translatable_fields : list Field) (queryset : TranslationQuerySet)
    (table table' : list Translation) :
  get_translations app context [] (Some tag) = Ok queryset ->
  List.filter (fun row => negb (selects app queryset row)) table'
  = List.filter (fun row => negb (selects app queryset row)) table ->
  renew app context tag translatable_fields table'
  = renew app context tag translatable_fields table.
Proof.
  intros Hquery Hothers. unfold renew, mut_bind, lift, queryset_delete.
  by rewrite Hquery, Hothers.
Qed.

Lemma update_translations_renew (app : App) (obj : Instance) (lang : option string)
    (tag : string) (translatable_fields : list Field) (table : list Translation) :
  is_Translatable app (inst_model obj) = true ->
  get_validated_language app lang = Ok tag ->
  get_translatable_fields app (inst_model obj) = Ok translatable_fields ->
  update_translations app (ModelInstance obj) lang table
  = atomic (renew app (ModelInstance obj) tag translatable_fields) table.
Proof.
  intros Htr Hlang Hfields. unfold update_translations, mut_bind, lift.
  rewrite Hlang. cbn [persist_context]. rewrite Htr, Hfields. unfold try_reraise.
  by destruct (atomic _ table) as [after [[]|e]].
Qed.

(** The staged rows of an instance carry its content type, the text of its
    id and the language. *)
Lemma add_translations_own (app : App) (tag : string) (translatable_fields : list Field)
    (obj : Instance) (new : Translation) :
  new ∈ add_translations app tag translatable_fields obj ->
  content_type new = content_type_id app (inst_model obj)
  /\ object_id new = str (inst_id obj) /\ language new = tag.
Proof. intros Hnew. by apply add_translations_row in Hnew as (f & _ & _ & ->). Qed.

(** X15. Persisting is idempotent for a stored instance: after a call on a
    translatable instance whose row is stored has returned, the same call
    on the table it left returns and leaves that table as it is. *)
Theorem persist_idempotent (app : App) (obj : Instance) (lang : option string)
    (tag : string) (translatable_fields : list Field)
    (table table' : list Translation) :
  joins_stored_owner app (inst_model obj) (inst_id obj) ->
  is_Translatable app (inst_model obj) = true ->
  get_validated_language app lang = Ok tag ->
  get_translatable_fields app (inst_model obj) = Ok translatable_fields ->
  update_translations app (ModelInstance obj) lang table = (table', Ok tt) ->
  update_translations app (ModelInstance obj) lang table' = (table', Ok tt).
Proof.
  intros Hjoins Htr Hlang Hfields Hrun.
  destruct (update_translations_supersedes app obj lang tag translatable_fields
              table table' Hjoins Htr Hlang Hfields Hrun)
    as (name & Hname & Htable & _).
  cbv zeta in Htable.
  rewrite (update_translations_renew app obj lang tag translatable_fields) in Hrun |- *
    by done.
  unfold atomic in *.
  destruct (renew app (ModelInstance obj) tag translatable_fields table)
    as [after [[]|e]] eqn:Hrenew; [|done].
  injection Hrun as ->.
  set (queryset := Filtered tag [{| q_related_query_name := name;
                                    q_filter_string := "id";
                                    q_value := IdExact (inst_id obj) |}]) in *.
  assert (get_translations app (ModelInstance obj) [] (Some tag) = Ok queryset)
    as Hquery.
  { apply get_translations_own with (inst_model obj);
      [by eapply get_validated_language_again|done..]. }
  rewrite (renew_same_others app _ tag translatable_fields queryset table table' Hquery),
    Hrenew; [done|].
  rewrite Htable at 1. rewrite List.filter_app, filter_negb_idempotent.
  rewrite (filter_negb_all (selects app queryset)
             (add_translations app tag translatable_fields obj));
    [by rewrite app_nil_r|].
  intros new Hnew. apply add_translations_own in Hnew as (Hct & Hid & Hl).
  by apply selects_owned.
Qed.

Lemma persist_idempotent_witness :
  let table := [row 7 "1" "name" "de" "Alt"; row 7 "2" "name" "de" "Asien"] in
  let stored :=
    (update_translations sample (ModelInstance europa) (Some "de") table).1 in
  update_translations sample (ModelInstance europa) (Some "de") stored
  = (stored, Ok tt).
Proof.
  intros table stored.
  apply (persist_idempotent sample europa (Some "de") "de"
           [column "code" CharField; column "name" CharField;
            column "denonym" TextField] table stored
           (sample_joins_stored_owner Continent ltac:(apply list_elem_of_here))
           eq_refl eq_refl eq_refl eq_refl).
Defined.

(** The key of a staged row is made of the instance, the language and the
    name of the field. *)
Lemma staged_keys (app : App) (tag : string) (translatable_fields : list Field)
    (obj : Instance) :
  unique_key <$> add_translations app tag translatable_fields obj
  = (fun name => (content_type_id app (inst_model obj), str (inst_id obj), name, tag))
      <$> (field <$> add_translations app tag translatable_fields obj).
Proof.
  rewrite <- list_fmap_compose. apply list_fmap_ext. intros i new Hnew.
  apply list_elem_of_lookup_2, add_translations_row in Hnew as (f & _ & _ & ->).
  done.
Qed.



(** ** The translatable fields of a model *)

Lemma get_named_fields_Forall2 (app : App) (cls : Model) (names : list string)
    (fields : list Field) :
  get_named_fields app cls names = Ok fields
  <-> Forall2 (fun field_name f => get_field app cls field_name = Ok f) names fields.
Proof.
  revert fields. induction names as [|field_name rest IH]; intros fields.
  - split; [by intros [= <-]; constructor|]. by inversion 1.
  - cbn [get_named_fields]. split.
    + destruct (get_field app cls field_name) as [f|] eqn:Hf; [|done]. cbn.
      destruct (get_named_fields app cls rest) as [fs|] eqn:Hfs; [|done]. cbn.
      intros [= <-]. constructor; [done|]. by apply IH.
    + inversion 1 as [|? f ? fs Hf Hfs]; subst. rewrite Hf. cbn.
      apply IH in Hfs. by rewrite Hfs.
Qed.

Lemma get_field_elem (app : App) (cls : Model) (field_name : string) (f : Field) :
  get_field app cls field_name = Ok f ->
  f ∈ get_fields app cls /\ f_name f = field_name.
Proof.
  unfold get_field.
  destruct (List.find _ (get_fields app cls)) as [g|] eqn:Hfind; [|done].
  intros [= <-]. apply find_some in Hfind as [Hin Hname].
  split; [by apply list_elem_of_In|]. by apply bool_decide_eq_true_1 in Hname.
Qed.

Lemma get_field_unknown (app : App) (cls : Model) (field_name : string) :
  (exists e, get_field app cls field_name = Err e)
  <-> field_name ∉ f_name <$> get_fields app cls.
Proof.
  unfold get_field. split.
  - destruct (List.find _ (get_fields app cls)) as [g|] eqn:Hfind;
      [by intros [? ?]|].
    intros _ Hin. apply list_elem_of_fmap in Hin as (f & -> & Hin).
    apply list_elem_of_In in Hin.
    pose proof (find_none _ _ Hfind f Hin) as Hname. cbn in Hname.
    by rewrite bool_decide_eq_true_2 in Hname.
  - intros Hout. destruct (List.find _ (get_fields app cls)) as [g|] eqn:Hfind;
      [|by eexists].
    exfalso. apply Hout. apply find_some in Hfind as [Hin Hname].
    apply bool_decide_eq_true_1 in Hname. subst field_name.
    by apply list_elem_of_fmap_2, list_elem_of_In.
Qed.

(** X17. [get_translatable_fields] with an explicit
    [TranslatableMeta.fields]. The result is, name by name and in the order
    given, repetitions included, the field each name looks up: no test on
    the kind of the field is made, so an e-mail field, a field with choices
    or a relation is translatable when it is named. The call raises exactly
    when some name is not a field of the model, and the exception is
    [FieldDoesNotExist]. *)
Theorem translatable_fields_explicit (app : App) (cls : Model) (names : list string) :
  has_TranslatableMeta app cls = true ->
  TranslatableMeta_fields app cls = Some names ->
  (forall fields,
      get_translatable_fields app cls = Ok fields
      <-> Forall2 (fun field_name f => get_field app cls field_name = Ok f) names fields)
  /\ (forall fields,
         get_translatable_fields app cls = Ok fields ->
         f_name <$> fields = names
         /\ forall f, f ∈ fields -> f ∈ get_fields app cls)
  /\ ((exists e, get_translatable_fields app cls = Err e)
      <-> exists field_name,
            field_name ∈ names /\ field_name ∉ f_name <$> get_fields app cls)
  /\ (forall e, get_translatable_fields app cls = Err e -> e = FieldDoesNotExist).
Proof.
  intros Hmeta Hnames. unfold get_translatable_fields. rewrite Hmeta, Hnames.
  split; [apply get_named_fields_Forall2|]. split; [|split].
  - intros fields Hfields. apply get_named_fields_Forall2 in Hfields. clear Hnames.
    induction Hfields as [|field_name f rest fs Hf _ [IHnames IHin]].
    { split; [done|]. intros f Hf. by apply elem_of_nil in Hf. }
    apply get_field_elem in Hf as [Hin Hname]. split.
    + by rewrite fmap_cons, Hname, IHnames.
    + intros g Hg. apply elem_of_cons in Hg as [->|Hg]; [done|by apply IHin].
  - clear Hnames. induction names as [|field_name rest IH].
    + split; [by intros [? ?]|]. intros (? & Hin & _). by apply elem_of_nil in Hin.
    + cbn [get_named_fields].
      destruct (get_field app cls field_name) as [f|e] eqn:Hf; cbn.
      * destruct (get_named_fields app cls rest) as [fs|e] eqn:Hfs; cbn.
        -- split; [by intros [? ?]|]. intros (other & Hin & Hout).
           apply elem_of_cons in Hin as [->|Hin].
           ++ apply get_field_unknown in Hout as [e He]. by rewrite Hf in He.
           ++ destruct IH as [_ IH]. destruct IH as [? ?]; [by exists other|done].
        -- split; [|by exists e]. intros _.
           destruct IH as [IH _]. destruct IH as (other & Hin & Hout); [by exists e|].
           exists other. split; [by apply list_elem_of_further|done].
      * split; [|by exists e]. intros _. exists field_name.
        split; [apply list_elem_of_here|]. apply get_field_unknown. by exists e.
  - clear Hnames. induction names as [|field_name rest IH]; [done|].
    cbn [get_named_fields]. intros e.
    destruct (get_field app cls field_name) as [f|e'] eqn:Hf; cbn.
    + destruct (get_named_fields app cls rest) as [fs|e'']; cbn; [done|].
      intros [= <-]. by apply IH.
    + intros [= <-]. by apply get_field_Err in Hf.
Qed.

Lemma translatable_fields_explicit_witness :
  get_translatable_fields sample Badge
  = Ok [column "name" CharField; column "name" CharField].
Proof.
  destruct (translatable_fields_explicit sample Badge ["name"; "name"] eq_refl eq_refl)
    as [Hfields _].
  apply Hfields. by repeat constructor.
Defined.

(** ** The methods of [Translatable] *)

(** A call with a keyword the callee does not declare ends before the body
    runs. *)
Lemma unexpected_keyword_first (declared : list string) (name : string)
    (value : KeywordValue) (kwargs : list (string * KeywordValue)) :
  name ∉ declared ->
  unexpected_keyword declared ((name, value) :: kwargs) = Some name.
Proof.
  intros Hname. unfold unexpected_keyword. cbn.
  by rewrite bool_decide_eq_false_2.
Qed.

(** X18. The methods [update_translations], [get_translations] and
    [get_translated] of [Translatable] cannot be used: each passes the
    keyword [iso_alpha_2_language_code], which the utility it calls does not
    declare, so every call, whatever the instance, the language, the
    relations, the translations passed and the table, ends in the
    [TypeError] of that keyword, with the table and the instance as they
    were. The same calls made with the keyword [lang] run the utility on the
    instance. *)
Theorem Translatable_methods_unexpected_keyword (app : App) (self : Instance)
    (relations : list string) (iso_alpha_2_language_code : option string)
    (translations_queryset : TranslationsArg) (table : list Translation) :
  Translatable_update_translations app self iso_alpha_2_language_code table
  = (table, UnexpectedKeyword "iso_alpha_2_language_code")
  /\ Translatable_get_translations app self relations iso_alpha_2_language_code
     = UnexpectedKeyword "iso_alpha_2_language_code"
  /\ Translatable_get_translated app table self relations iso_alpha_2_language_code
       translations_queryset
     = (self, UnexpectedKeyword "iso_alpha_2_language_code")
  /\ call_update_translations app (ModelInstance self)
       [("lang", KwLang iso_alpha_2_language_code)] table
     = (let '(table', r) :=
          update_translations app (ModelInstance self) iso_alpha_2_language_code table in
        (table', of_result r))
  /\ call_get_translations app (ModelInstance self) relations
       [("lang", KwLang iso_alpha_2_language_code)]
     = of_result (get_translations app (ModelInstance self) relations
                    iso_alpha_2_language_code)
  /\ call_translate app table (ModelInstance self) relations
       [("lang", KwLang iso_alpha_2_language_code);
        ("translations_queryset", KwTranslations translations_queryset)]
     = (let '(context', r) :=
          translate app table (ModelInstance self) relations iso_alpha_2_language_code
            translations_queryset in
        (context', of_result r)).
Proof.
  assert (forall declared,
             "iso_alpha_2_language_code" ∉ declared ->
             forall kwargs,
               unexpected_keyword declared
                 (("iso_alpha_2_language_code", KwLang iso_alpha_2_language_code) :: kwargs)
               = Some "iso_alpha_2_language_code") as Hkeyword.
  { intros declared Hout kwargs. by apply unexpected_keyword_first. }
  unfold Translatable_update_translations, Translatable_get_translations,
    Translatable_get_translated, call_update_translations, call_get_translations,
    call_translate.
  rewrite !Hkeyword by (by apply (bool_decide_unpack _)).
  by repeat split.
Qed.
